(** * g2o string tools: a shallow embedding of [string_tools.cpp]

    The development follows [Thirdparty/g2o/g2o/stuff/string_tools.cpp]:
    - [StdString]: the [std::string] operations the file calls
      ([find_first_of], [find_first_not_of], [find_last_not_of], [substr]),
      on [size_type] values with their 64-bit wrap-around;
    - [IStream]: the part of [std::istream] that [readLine] uses;
    - [Libc]: the C runtime seen by [portable_vasprintf]: the heap
      ([malloc], [realloc], [free]), [vsnprintf], [va_list] and [raise];
    - the functions of the file themselves, under their own names;
    - [Demo]: a small platform on which the functions are run. *)

From Stdlib Require Import ZArith Lia List Ascii String Bool DecimalString.
From stdpp Require Import base option list gmap strings.

Open Scope Z_scope.

(** A [std::string] is its sequence of characters. *)
Abbreviation cstring := (list ascii).

(** String literals of the source, as character sequences. *)
Definition lit (s : string) : cstring := list_ascii_of_string s.

(** ** [std::string] *)
Module StdString.

(** [std::string::size_type] is a 64-bit unsigned integer. *)
Definition size_modulus : Z := 2 ^ 64.

(** [std::string::npos], that is [size_type(-1)]. *)
Definition npos : Z := size_modulus - 1.

(** Unsigned arithmetic on [size_type] wraps around. *)
Definition wrap (z : Z) : Z := z mod size_modulus.

Definition size (s : cstring) : Z := Z.of_nat (length s).

(** Membership of a character in a character set given as a string. *)
Definition in_set (set : cstring) (c : ascii) : bool := bool_decide (c ∈ set).

(** Index of the first character satisfying [p], if any. *)
Fixpoint index_first (p : ascii → bool) (s : cstring) : option nat :=
  match s with
  | [] => None
  | c :: s' => if p c then Some O else S <$> index_first p s'
  end.

(** Index of the last character satisfying [p], if any. *)
Definition index_last (p : ascii → bool) (s : cstring) : option nat :=
  (λ i, length s - 1 - i)%nat <$> index_first p (reverse s).

(** A search result as a [size_type]: the position found, or [npos]. *)
Definition position (base : Z) (found : option nat) : Z :=
  match found with
  | Some i => base + Z.of_nat i
  | None => npos
  end.

(** [s.find_first_of(set, pos)] *)
Definition find_first_of (s set : cstring) (pos : Z) : Z :=
  if size s <=? pos then npos
  else position pos (index_first (in_set set) (drop (Z.to_nat pos) s)).

(** [s.find_first_not_of(set)], searching from position 0. *)
Definition find_first_not_of (s set : cstring) : Z :=
  position 0 (index_first (λ c, negb (in_set set c)) s).

(** [s.find_last_not_of(set)], searching back from the end. *)
Definition find_last_not_of (s set : cstring) : Z :=
  position 0 (index_last (λ c, negb (in_set set c)) s).

(** [s.substr(pos, n)] and the constructor [std::string(s, pos, n)]:
    [None] stands for the [std::out_of_range] both throw when
    [pos > s.size()]; otherwise at most [n] characters are taken. *)
Definition substr (s : cstring) (pos n : Z) : option cstring :=
  if size s <? pos then None
  else Some (take (Z.to_nat (Z.min n (size s - pos))) (drop (Z.to_nat pos) s)).

End StdString.

(** The result of running a function of the file that may throw, or whose
    loop is unrolled a bounded number of times. *)
Inductive exec (A : Type) : Type :=
| Ok (a : A)
| OutOfRange            (* std::out_of_range escaped *)
| OutOfFuel.            (* the loop did not finish within its bound *)
Arguments Ok {A} a.
Arguments OutOfRange {A}.
Arguments OutOfFuel {A}.

(** ** [trim] *)

(** The set [" \t\n"]. *)
Definition whitespace : cstring := [" "; "009"; "010"]%char.

(** The test [find_first_not_of] and [find_last_not_of] apply to a
    character. *)
Definition not_blank (c : ascii) : bool := negb (StdString.in_set whitespace c).

Definition trim (s : cstring) : exec cstring :=
  if StdString.size s =? 0 then Ok s
  else
    let b := StdString.find_first_not_of s whitespace in
    let e := StdString.find_last_not_of s whitespace in
    if b =? StdString.npos then Ok []
    else
      match StdString.substr s b (StdString.wrap (e - b + 1)) with
      | Some r => Ok r
      | None => OutOfRange
      end.

(** ** [strSplit] *)

(** The body of the [do ... while] loop, run at most [fuel] times. *)
Fixpoint strSplit_loop (fuel : nat) (str delimiters : cstring)
    (tokens : list cstring) (lastPos : Z) : exec (list cstring) :=
  match fuel with
  | O => OutOfFuel
  | S fuel' =>
      let pos := StdString.find_first_of str delimiters lastPos in
      match StdString.substr str lastPos (StdString.wrap (pos - lastPos)) with
      | None => OutOfRange
      | Some token =>
          let tokens := tokens ++ [token] in
          let lastPos := StdString.wrap (pos + 1) in
          if bool_decide (StdString.npos ≠ pos)
          then strSplit_loop fuel' str delimiters tokens lastPos
          else Ok tokens
      end
  end.

(** One iteration for each character and one more always suffices. *)
Definition strSplit (str delimiters : cstring) : exec (list cstring) :=
  strSplit_loop (S (length str)) str delimiters [] 0.

(** The splitting the specification describes: a token ends at every
    delimiter character, and nothing is collapsed. *)
Fixpoint split_at_every_delimiter (delimiters str : cstring) : list cstring :=
  match str with
  | [] => [[]]
  | c :: str' =>
      if StdString.in_set delimiters c
      then [] :: split_at_every_delimiter delimiters str'
      else
        match split_at_every_delimiter delimiters str' with
        | token :: tokens => (c :: token) :: tokens
        | [] => [[c]]
        end
  end.

(** The tokens put back together, with the separators given between
    them, in order. *)
Fixpoint rejoin (tokens : list cstring) (separators : cstring) : cstring :=
  match tokens, separators with
  | token :: tokens', d :: separators' => token ++ d :: rejoin tokens' separators'
  | token :: _, [] => token
  | [], _ => []
  end.

(** ** [trimLeft], [trimRight] *)

Definition trimLeft (s : cstring) : exec cstring :=
  if StdString.size s =? 0 then Ok s
  else
    let b := StdString.find_first_not_of s whitespace in
    let e := StdString.wrap (StdString.size s - 1) in
    if b =? StdString.npos then Ok []
    else
      match StdString.substr s b (StdString.wrap (e - b + 1)) with
      | Some r => Ok r
      | None => OutOfRange
      end.

Definition trimRight (s : cstring) : exec cstring :=
  if StdString.size s =? 0 then Ok s
  else
    let b := 0 in
    let e := StdString.find_last_not_of s whitespace in
    if b =? StdString.npos then Ok []
    else
      match StdString.substr s b (StdString.wrap (e - b + 1)) with
      | Some r => Ok r
      | None => OutOfRange
      end.

(** ** [strToLower], [strToUpper] *)

(** The value of a [char] as an [int] ([char] is signed on the targets
    the library is built for), and the [char] an [int] converts to. *)
Definition int_of_char (c : ascii) : Z :=
  let n := Z.of_N (N_of_ascii c) in if n <? 128 then n else n - 256.
Definition char_of_int (z : Z) : ascii := ascii_of_N (Z.to_N (z mod 256)).

(** [std::tolower] and [std::toupper] in the "C" locale, which a program
    has until it calls [setlocale]: the 26 letters are mapped, every other
    value is returned as it is. *)
Definition tolower (c : Z) : Z := if (65 <=? c) && (c <=? 90) then c + 32 else c.
Definition toupper (c : Z) : Z := if (97 <=? c) && (c <=? 122) then c - 32 else c.

(** [std::transform(s.begin(), s.end(), back_inserter(ret), f)]: each
    character goes through [f] and is pushed at the back of [ret]. *)
Fixpoint transform (s : cstring) (ret : cstring) (f : Z → Z) : cstring :=
  match s with
  | [] => ret
  | c :: s' => transform s' (ret ++ [char_of_int (f (int_of_char c))]) f
  end.

Definition strToLower (s : cstring) : cstring :=
  let ret := [] in
  transform s ret tolower.

Definition strToUpper (s : cstring) : cstring :=
  let ret := [] in
  transform s ret toupper.

(** What the two conversions do to one character, and the letters they
    change. *)
Definition lower_char (c : ascii) : ascii := char_of_int (tolower (int_of_char c)).
Definition upper_char (c : ascii) : ascii := char_of_int (toupper (int_of_char c)).
Definition is_upper (c : ascii) : bool :=
  (65 <=? N_of_ascii c)%N && (N_of_ascii c <=? 90)%N.
Definition is_lower (c : ascii) : bool :=
  (97 <=? N_of_ascii c)%N && (N_of_ascii c <=? 122)%N.

(** ** [strStartsWith], [strEndsWith] *)

(** [std::equal(first1, last1, first2)]: the elements of the first range
    are compared, in order and up to the first difference, with those
    that start at [first2]; [None] when the second range ends before the
    first one, where the comparison reads past its end. *)
Fixpoint equal (range1 range2 : cstring) : option bool :=
  match range1, range2 with
  | [], _ => Some true
  | _ :: _, [] => None
  | c1 :: range1', c2 :: range2' =>
      if bool_decide (c1 = c2) then equal range1' range2' else Some false
  end.

Definition strStartsWith (s start : cstring) : option bool :=
  if StdString.size s <? StdString.size start then Some false
  else equal start s.

(** The reverse iterators of the source walk the reversed strings. *)
Definition strEndsWith (s end_ : cstring) : option bool :=
  if StdString.size s <? StdString.size end_ then Some false
  else equal (reverse end_) (reverse s).

(** ** Machine integers *)

(** [int] is a 32-bit two's complement integer. *)
Definition INT_MAX : Z := 2 ^ 31 - 1.
Definition INT_MIN : Z := - 2 ^ 31.

(** The value an [int] takes when a result does not fit: it wraps around. *)
Definition to_int (z : Z) : Z := (z + 2 ^ 31) mod 2 ^ 32 - 2 ^ 31.

(** Conversion of an [int] to [size_t], a 64-bit unsigned integer. *)
Definition to_size_t (z : Z) : Z := z mod 2 ^ 64.

(** ** [std::istream] *)
Module IStream.

(** An input stream over a character sequence: the characters not read
    yet, and the state flags [eofbit] and [failbit]. ([badbit] reports a
    failure of the underlying device, which a character sequence does
    not have.) *)
Record istream : Type := {
  unread : cstring;
  eofbit : bool;
  failbit : bool;
}.

(** A stream freshly opened on the characters [s]. *)
Definition opened (s : cstring) : istream :=
  {| unread := s; eofbit := false; failbit := false |}.

Definition good (is_ : istream) : bool := negb (eofbit is_) && negb (failbit is_).
Definition eof (is_ : istream) : bool := eofbit is_.
Definition fail (is_ : istream) : bool := failbit is_.

(** [is.clear()] resets every state flag. *)
Definition clear (is_ : istream) : istream :=
  {| unread := unread is_; eofbit := false; failbit := false |}.

Definition newline : ascii := "010"%char.

(** The characters before the next newline, and what follows them
    (starting with that newline, if there is one). *)
Fixpoint until_newline (s : cstring) : cstring * cstring :=
  match s with
  | [] => ([], [])
  | c :: s' =>
      if bool_decide (c = newline) then ([], s)
      else let '(line, rest) := until_newline s' in (c :: line, rest)
  end.

(** [is.get(sb)], that is [is.get(sb, '\n')]: on a stream that is not
    good it only sets [failbit]; otherwise it moves characters into the
    buffer [sb] until the next one is a newline, which stays unread, or
    until the end of the data, which sets [eofbit]; it sets [failbit]
    when it has moved no character. *)
Definition get_into (is_ : istream) (sb : cstring) : istream * cstring :=
  if good is_ then
    let '(line, rest) := until_newline (unread is_) in
    ({| unread := rest;
        eofbit := bool_decide (rest = []);
        failbit := bool_decide (line = []) |},
     sb ++ line)
  else
    ({| unread := unread is_; eofbit := eofbit is_; failbit := true |}, sb).

(** [is.get(c)]: reads one character into [c]; at the end of the data it
    sets [eofbit] and [failbit] and leaves [c] as it was. *)
Definition get_char (is_ : istream) (c : ascii) : istream * ascii :=
  if good is_ then
    match unread is_ with
    | [] => ({| unread := []; eofbit := true; failbit := true |}, c)
    | c' :: rest =>
        ({| unread := rest; eofbit := eofbit is_; failbit := failbit is_ |}, c')
    end
  else
    ({| unread := unread is_; eofbit := eofbit is_; failbit := true |}, c).

End IStream.

(** ** [readLine] *)

(** Modelled from the spec: the loop of the macro [G2O_FSKIP_LINE] (see
    below), [while (c != '\n' && f.good() && !f.eof()) f.get(c);], run at
    most [fuel] times. *)
Fixpoint G2O_FSKIP_LINE_loop (fuel : nat) (f : IStream.istream) (c : ascii)
    : exec IStream.istream :=
  if negb (bool_decide (c = IStream.newline)) && IStream.good f && negb (IStream.eof f)
  then
    match fuel with
    | O => OutOfFuel
    | S fuel' =>
        let '(f, c) := IStream.get_char f c in G2O_FSKIP_LINE_loop fuel' f c
    end
  else Ok f.

(** Modelled from the spec: the macro [G2O_FSKIP_LINE] is defined in
    [macros.h], which is not among the sources. The specification has
    [readLine] discard the newline and advance the cursor past it, and the
    call site says it reads the newline that [get] did not read: starting
    from [c = ' '], it reads single characters until one is a newline or
    the stream is no longer good. One iteration for each unread character
    and one more always suffices. *)
Definition G2O_FSKIP_LINE (f : IStream.istream) : exec IStream.istream :=
  G2O_FSKIP_LINE_loop (S (length (IStream.unread f))) f " "%char.

(** [readLine(is_, currentLine)]: the value returned, the stream and the
    line buffer afterwards. *)
Definition readLine (is_ : IStream.istream) (currentLine : cstring)
    : exec (Z * IStream.istream * cstring) :=
  if IStream.eof is_ then Ok (-1, is_, currentLine)
  else
    let currentLine := [] in                       (* str(empty); clear() *)
    let '(is_, currentLine) := IStream.get_into is_ currentLine in
    let is_ := if IStream.fail is_ then IStream.clear is_ else is_ in
    match G2O_FSKIP_LINE is_ with
    | Ok is_ => Ok (to_int (StdString.size currentLine), is_, currentLine)
    | OutOfRange => OutOfRange
    | OutOfFuel => OutOfFuel
    end.

(** A stream on which a read has already run into the end of the data. *)
Definition exhausted : IStream.istream :=
  {| IStream.unread := []; IStream.eofbit := true; IStream.failbit := true |}.

(** A caller that calls [readLine] [n] times in a row on the same stream
    and line buffer, and records what each call returned and left in the
    buffer. *)
Fixpoint read_lines (n : nat) (is_ : IStream.istream) (currentLine : cstring)
    : exec (list (Z * cstring)) :=
  match n with
  | O => Ok []
  | S n' =>
      match readLine is_ currentLine with
      | Ok (r, is_, currentLine) =>
          match read_lines n' is_ currentLine with
          | Ok results => Ok ((r, currentLine) :: results)
          | OutOfRange => OutOfRange
          | OutOfFuel => OutOfFuel
          end
      | OutOfRange => OutOfRange
      | OutOfFuel => OutOfFuel
      end
  end.

(** ** The C runtime *)
Module Libc.

Inductive signal : Type := SIGINT.

(** What the process has arranged for a signal: the default action
    (for [SIGINT], the process is terminated), to ignore it, or a
    handler that returns. *)
Inductive disposition : Type := SIG_DFL | SIG_IGN | SIG_HANDLER.

(** A value passed through a variadic argument list. *)
Inductive arg : Type :=
| ArgInt (z : Z)
| ArgStr (s : cstring).

(** A [va_list]: a cursor on the arguments still to be read, or, once a
    callee has read from it, an indeterminate value that may only be
    passed to [va_end]. *)
Inductive va_list : Type :=
| VaArgs (args : list arg)
| VaIndeterminate.

Definition va_start (args : list arg) : va_list := VaArgs args.
Definition va_copy (src : va_list) : va_list := src.
Definition va_end (ap : va_list) : va_list := VaIndeterminate.

(** The platform a program runs on: the text a format and its arguments
    stand for ([None] for a format error), which is what every function
    of the [printf] family renders, and the disposition of [SIGINT]. *)
Record platform : Type := {
  format : cstring → list arg → option cstring;
  sigint : disposition;
}.

(** Pointers are block names; [NULL] names no block. *)
Definition NULL : Z := 0.
Definition NUL : ascii := "000"%char.

(** An allocated block: its size in bytes and the bytes written at its
    start (the bytes after them are not initialised). *)
Record block : Type := {
  blk_size : Z;
  blk_bytes : cstring;
}.

(** The calls into the runtime, in the order they are made. *)
Inductive event : Type :=
| EvRaise (s : signal)
| EvMalloc (size : Z) (p : Z)
| EvRealloc (old : Z) (size : Z) (p : Z)
| EvFree (p : Z)
| EvVsnprintf (buf : Z) (size : Z) (fmt : cstring) (args : list arg) (r : Z)
| EvCerr (msg : cstring).

(** The state of the process: the live blocks, the name of the next
    block, the requests that are going to fail (an allocation request
    fails when the head of [alloc_faults] is [true], a call of
    [vsnprintf] fails inside the library when the head of
    [format_faults] is; an empty list stands for no more failures), and
    the calls made so far. *)
Record world : Type := {
  heap : gmap Z block;
  next_block : Z;
  alloc_faults : list bool;
  format_faults : list bool;
  trace : list event;
}.

Definition next_fault (faults : list bool) : bool :=
  match faults with
  | fault :: _ => fault
  | [] => false
  end.

(** How a call ends: it returns, the process is terminated by a signal,
    or the behaviour is undefined. *)
Inductive result (A : Type) : Type :=
| Returns (a : A) (w : world)
| Killed (s : signal) (w : world)
| Undefined (w : world).
Arguments Returns {A} a w.
Arguments Killed {A} s w.
Arguments Undefined {A} w.

Definition M (A : Type) : Type := world → result A.

#[export] Instance M_ret : MRet M := λ A a w, Returns a w.
#[export] Instance M_bind : MBind M := λ A B k m w,
  match m w with
  | Returns a w' => k a w'
  | Killed s w' => Killed s w'
  | Undefined w' => Undefined w'
  end.

Definition log (e : event) (w : world) : world :=
  {| heap := heap w; next_block := next_block w;
     alloc_faults := alloc_faults w; format_faults := format_faults w;
     trace := trace w ++ [e] |}.

Section Runtime.
Context (pf : platform).

(** [std::raise(sig)] *)
Definition raise (s : signal) : M Z := λ w,
  match sigint pf with
  | SIG_DFL => Killed s (log (EvRaise s) w)
  | SIG_IGN | SIG_HANDLER => Returns 0 (log (EvRaise s) w)
  end.

(** [malloc(size)] *)
Definition malloc (size : Z) : M Z := λ w,
  if next_fault (alloc_faults w) then
    Returns NULL
      {| heap := heap w; next_block := next_block w;
         alloc_faults := tail (alloc_faults w);
         format_faults := format_faults w;
         trace := trace w ++ [EvMalloc size NULL] |}
  else
    let p := next_block w in
    Returns p
      {| heap := <[p := {| blk_size := size; blk_bytes := [] |}]> (heap w);
         next_block := p + 1;
         alloc_faults := tail (alloc_faults w);
         format_faults := format_faults w;
         trace := trace w ++ [EvMalloc size p] |}.

(** [realloc(old, size)] for [old] not [NULL]: on failure the old
    block stays as it is; on success the old block is released and a
    new one holds its bytes, as far as they fit. (The new block always
    gets a new name here; a caller may not rely on the old one either
    way.) *)
Definition realloc (old : Z) (size : Z) : M Z := λ w,
  match heap w !! old with
  | None => Undefined w
  | Some b =>
      if next_fault (alloc_faults w) then
        Returns NULL
          {| heap := heap w; next_block := next_block w;
             alloc_faults := tail (alloc_faults w);
             format_faults := format_faults w;
             trace := trace w ++ [EvRealloc old size NULL] |}
      else
        let p := next_block w in
        let kept := Z.to_nat (Z.min size (StdString.size (blk_bytes b))) in
        Returns p
          {| heap := <[p := {| blk_size := size;
                               blk_bytes := take kept (blk_bytes b) |}]>
                       (delete old (heap w));
             next_block := p + 1;
             alloc_faults := tail (alloc_faults w);
             format_faults := format_faults w;
             trace := trace w ++ [EvRealloc old size p] |}
  end.

(** [free(p)]: nothing happens for [NULL]; releasing what is not a
    live block (a second release, for one) is undefined. *)
Definition free (p : Z) : M unit := λ w,
  if p =? NULL then Returns () w
  else
    match heap w !! p with
    | None => Undefined w
    | Some _ =>
        Returns ()
          {| heap := delete p (heap w); next_block := next_block w;
             alloc_faults := alloc_faults w;
             format_faults := format_faults w;
             trace := trace w ++ [EvFree p] |}
    end.

(** The value [vsnprintf] reports for a format and its arguments: the
    length of the whole rendered text, whatever the size of the
    buffer, or a negative value when the format is in error, when the
    length does not fit an [int], or when the call fails inside the
    library. The negative value is -1, as glibc, musl and the Microsoft
    runtime have it. *)
Definition reported (fault : bool) (fmt : cstring) (args : list arg) : Z :=
  if fault then -1
  else
    match format pf fmt args with
    | None => -1
    | Some text =>
        if INT_MAX <? StdString.size text then -1 else StdString.size text
    end.

(** The bytes [vsnprintf] stores in a buffer of [size] bytes: as much
    of the text as fits before the terminator. *)
Definition stored (size : Z) (text : cstring) : cstring :=
  if size =? 0 then []
  else take (Z.to_nat (Z.min (size - 1) (StdString.size text))) text ++ [NUL].

(** The bytes a call of [vsnprintf] that reports [r] leaves at the
    start of the buffer: none when it reports an error. *)
Definition written (r size : Z) (fmt : cstring) (args : list arg) : cstring :=
  if r <? 0 then [] else stored size (default [] (format pf fmt args)).

(** [vsnprintf(buf, size, fmt, ap)]: the value reported, and [ap]
    afterwards. Reading from an indeterminate [ap], and writing
    outside a live block, are undefined. *)
Definition vsnprintf (buf : Z) (size : Z) (fmt : cstring) (ap : va_list)
    : M (Z * va_list) := λ w,
  match ap with
  | VaIndeterminate => Undefined w
  | VaArgs args =>
      match heap w !! buf with
      | None => Undefined w
      | Some b =>
          let r := reported (next_fault (format_faults w)) fmt args in
          let bytes := written r size fmt args in
          if blk_size b <? StdString.size bytes then Undefined w
          else
            Returns (r, VaIndeterminate)
              {| heap := <[buf := {| blk_size := blk_size b;
                                     blk_bytes := bytes ++ drop (length bytes) (blk_bytes b) |}]>
                           (heap w);
                 next_block := next_block w;
                 alloc_faults := alloc_faults w;
                 format_faults := tail (format_faults w);
                 trace := trace w ++ [EvVsnprintf buf size fmt args r] |}
      end
  end.

(** The characters before the first terminator, if there is one. *)
Fixpoint until_NUL (bytes : cstring) : option cstring :=
  match bytes with
  | [] => None
  | c :: bytes' =>
      if bool_decide (c = NUL) then Some []
      else (c ::.) <$> until_NUL bytes'
  end.

(** The conversion of a [char*] to a [std::string]: the characters at
    [p] up to the terminator. It is undefined for [NULL], and when the
    block ends before a terminator. *)
Definition string_of (p : Z) : M cstring := λ w,
  if p =? NULL then Undefined w
  else
    match heap w !! p with
    | None => Undefined w
    | Some b =>
        match until_NUL (blk_bytes b) with
        | None => Undefined w
        | Some s => Returns s w
        end
    end.

(** [cerr << msg << endl] *)
Definition cerr (msg : cstring) : M unit := λ w, Returns () (log (EvCerr msg) w).

End Runtime.

(** The allocator has never handed out the name of the next block, nor
    any later one, and [NULL] is not among them. *)
Definition fresh (w : world) : Prop :=
  0 < next_block w ∧ ∀ p, next_block w <= p → heap w !! p = None.

(** Allocation requests and renderings among the calls made. *)
Definition is_alloc_request (e : event) : bool :=
  match e with
  | EvMalloc _ _ | EvRealloc _ _ _ => true
  | _ => false
  end.

Definition is_rendering (e : event) : bool :=
  match e with
  | EvVsnprintf _ _ _ _ _ => true
  | _ => false
  end.

Definition is_realloc (e : event) : bool :=
  match e with
  | EvRealloc _ _ _ => true
  | _ => false
  end.

Definition owns (owned : list Z) (p : Z) : bool := existsb (Z.eqb p) owned.
Definition disown (owned : list Z) (p : Z) : list Z :=
  List.filter (λ q, negb (q =? p)) owned.

(** The blocks a caller owns after a sequence of calls, given those it
    owned before: a granted [malloc] adds a block, a granted [realloc]
    replaces one, [free] removes one. [None]: a block was released, or
    handed to [realloc], that was not owned at that point (a second
    release, for one). *)
Fixpoint ledger (owned : list Z) (calls : list event) : option (list Z) :=
  match calls with
  | [] => Some owned
  | EvMalloc _ p :: calls' =>
      ledger (if p =? NULL then owned else owned ++ [p]) calls'
  | EvRealloc old _ p :: calls' =>
      if owns owned old then
        ledger (if p =? NULL then owned else disown owned old ++ [p]) calls'
      else None
  | EvFree p :: calls' =>
      if owns owned p then ledger (disown owned p) calls' else None
  | _ :: calls' => ledger owned calls'
  end.

(** The ways out of [portable_vasprintf]. *)
Variant exit : Type :=
| MallocRefused | ProbeError | Fits | ReallocRefused | RetryError | Retried.
End Libc.

(** ** [portable_vasprintf], [portable_asprintf], [formatString] *)
Section Builder.
Import Libc.
Context (pf : platform).

(** The value returned and the value of [*strp] afterwards, given its
    value [strp] before. *)
Definition portable_vasprintf (strp : Z) (fmt : cstring) (ap : va_list)
    : M (Z * Z) :=
  _ ← raise pf SIGINT;
  let length := 512 in
  buffer ← malloc (to_size_t length);
  if buffer =? NULL then mret (-1, strp)
  else
    let ap_copy := va_copy ap in
    '(nchars, ap_copy) ← vsnprintf pf buffer (to_size_t length) fmt ap_copy;
    if nchars <? 0 then
      _ ← free buffer;
      let ap_copy := va_end ap_copy in
      mret (-1, strp)
    else if nchars <? length then
      let strp := buffer in
      let ap_copy := va_end ap_copy in
      mret (nchars, strp)
    else
      let length := to_int (nchars + 1) in
      new_buffer ← realloc buffer (to_size_t length);
      if new_buffer =? NULL then
        _ ← free buffer;
        let ap_copy := va_end ap_copy in
        mret (-1, strp)
      else
        '(nchars, ap) ← vsnprintf pf new_buffer (to_size_t length) fmt ap;
        strp ← (if nchars <? 0
                then _ ← free new_buffer; mret strp
                else mret new_buffer);
        let ap_copy := va_end ap_copy in
        mret (nchars, strp).

Definition portable_asprintf (strp : Z) (fmt : cstring) (args : list arg)
    : M (Z * Z) :=
  _ ← raise pf SIGINT;
  let ap := va_start args in
  result ← portable_vasprintf strp fmt ap;
  let ap := va_end ap in
  mret result.

(** [__PRETTY_FUNCTION__] inside [formatString]. *)
Definition PRETTY_FUNCTION : cstring :=
  lit "std::string g2o::formatString(const char*, ...)".

(** The diagnostic [formatString] writes to [cerr]. *)
Definition allocation_diagnostic : cstring :=
  PRETTY_FUNCTION ++ lit ": Error while allocating memory".

Definition formatString (fmt : cstring) (args : list arg) : M cstring :=
  let auxPtr := NULL in
  let arg_list := va_start args in
  '(numChar, auxPtr) ← portable_vasprintf auxPtr fmt arg_list;
  let arg_list := va_end arg_list in
  retString ← (if bool_decide (numChar ≠ -1)
               then string_of auxPtr
               else _ ← cerr allocation_diagnostic; mret []);
  _ ← free auxPtr;
  mret retString.

(** [strPrintf(str, fmt, ...)]: the value returned and [str] afterwards.
    ([str] is assigned from [auxPtr] without a test of the value the
    builder returned.) *)
Definition strPrintf (str : cstring) (fmt : cstring) (args : list arg)
    : M (Z * cstring) :=
  let auxPtr := NULL in
  let arg_list := va_start args in
  '(numChars, auxPtr) ← portable_vasprintf auxPtr fmt arg_list;
  let arg_list := va_end arg_list in
  str ← string_of auxPtr;
  _ ← free auxPtr;
  mret (numChars, str).

(** The state of a call started in [w] when its probe pass has
    reported: the probe buffer holds what was rendered into it. *)
Definition probed (w : world) (fmt : cstring) (args : list arg) : world :=
  let buffer := next_block w in
  let nchars := reported pf (next_fault (format_faults w)) fmt args in
  {| heap := <[buffer := {| blk_size := 512;
                            blk_bytes := written pf nchars 512 fmt args |}]> (heap w);
     next_block := buffer + 1;
     alloc_faults := tail (alloc_faults w);
     format_faults := tail (format_faults w);
     trace := trace w ++ [EvRaise SIGINT; EvMalloc 512 buffer;
                          EvVsnprintf buffer 512 fmt args nchars] |}.

End Builder.

(** ** A platform to run examples on *)
Module Demo.
Import Libc.

(** The decimal digits of an integer, as [%d] prints them. *)
Definition decimal (z : Z) : cstring :=
  lit (DecimalString.NilZero.string_of_int (Z.to_int z)).

(** The text of a format with the directives [%s], [%d] and [%%]; any
    other directive, and a directive without an argument of its type, is
    a format error. *)
Fixpoint render (fmt : cstring) (args : list arg) : option cstring :=
  match fmt with
  | [] => Some []
  | "%"%char :: "%"%char :: fmt' => ("%"%char ::.) <$> render fmt' args
  | "%"%char :: "s"%char :: fmt' =>
      match args with
      | ArgStr s :: args' => (s ++.) <$> render fmt' args'
      | _ => None
      end
  | "%"%char :: "d"%char :: fmt' =>
      match args with
      | ArgInt z :: args' => (decimal z ++.) <$> render fmt' args'
      | _ => None
      end
  | "%"%char :: _ => None
  | c :: fmt' => (c ::.) <$> render fmt' args
  end.

(** A process that ignores [SIGINT], and one that leaves it at its
    default action. *)
Definition ignoring : platform := {| format := render; sigint := SIG_IGN |}.
Definition default : platform := {| format := render; sigint := SIG_DFL |}.

(** A process that has allocated nothing yet, with the given failures
    ahead. *)
Definition start (alloc_faults format_faults : list bool) : world :=
  {| heap := ∅; next_block := 1;
     alloc_faults := alloc_faults; format_faults := format_faults;
     trace := [] |}.

(** A format of [n] plain characters. *)
Definition plain (n : nat) : cstring := replicate n "x"%char.

End Demo.

(* ================================================================= *)
(** * Properties *)

(** ** Searching in a [std::string] *)
Section Searching.
Import StdString.
Context (p : ascii → bool).

Lemma index_first_none (s : cstring) :
  Forall (λ c, p c = false) s → index_first p s = None.
Proof.
  induction 1 as [|c s Hc _ IH]; simpl; [done|]. by rewrite Hc, IH.
Qed.

Lemma index_first_skip (l m : cstring) :
  Forall (λ c, p c = false) l →
  index_first p (l ++ m) = (λ i, length l + i)%nat <$> index_first p m.
Proof.
  induction 1 as [|c l Hc _ IH]; simpl.
  - by destruct (index_first p m).
  - rewrite Hc, IH. by destruct (index_first p m).
Qed.

Lemma index_first_here (l : cstring) (c : ascii) (m : cstring) :
  Forall (λ c, p c = false) l → p c = true →
  index_first p (l ++ c :: m) = Some (length l).
Proof.
  intros Hl Hc. rewrite index_first_skip by done. simpl. rewrite Hc. simpl.
  f_equal. lia.
Qed.

Lemma index_last_none (s : cstring) :
  Forall (λ c, p c = false) s → index_last p s = None.
Proof.
  intros Hs. unfold index_last. rewrite index_first_none; [done|].
  by apply Forall_reverse.
Qed.

Lemma index_last_here (m : cstring) (c : ascii) (r : cstring) :
  Forall (λ c, p c = false) r → p c = true →
  index_last p (m ++ c :: r) = Some (length m).
Proof.
  intros Hr Hc. unfold index_last.
  rewrite reverse_app, reverse_cons, <- app_assoc. simpl.
  rewrite index_first_here; [|by apply Forall_reverse|done]. simpl.
  rewrite length_reverse, length_app. simpl. f_equal. lia.
Qed.

(** Every string is a run of characters failing [p], followed by nothing
    or by a part that starts with a character satisfying [p]. *)
Lemma leading_run (s : cstring) :
  ∃ l rest, s = l ++ rest ∧ Forall (λ c, p c = false) l ∧
    (rest = [] ∨ ∃ c t, rest = c :: t ∧ p c = true).
Proof.
  induction s as [|c s (l & rest & -> & Hl & Hrest)].
  - exists [], []. auto.
  - destruct (p c) eqn:Hc.
    + exists [], (c :: l ++ rest). split; [done|]. split; [done|]. right. eauto.
    + exists (c :: l), rest. split; [done|]. split; [by constructor|done].
Qed.

Lemma trailing_run (s : cstring) :
  ∃ rest r, s = rest ++ r ∧ Forall (λ c, p c = false) r ∧
    (rest = [] ∨ ∃ t c, rest = t ++ [c] ∧ p c = true).
Proof.
  destruct (leading_run (reverse s)) as (l & rest & Hs & Hl & Hrest).
  exists (reverse rest), (reverse l). split.
  - rewrite <- reverse_app, <- Hs. by rewrite reverse_involutive.
  - split; [by apply Forall_reverse|].
    destruct Hrest as [->|(c & t & -> & Hc)]; [by left|right].
    exists (reverse t), c. by rewrite reverse_cons.
Qed.
End Searching.

(** ** [trim] *)
Section Trim.
Import StdString.

(** A string of blanks only, the empty one included, trims to nothing. *)
Lemma trim_blank (s : cstring) :
  Forall (λ c, not_blank c = false) s → trim s = Ok [].
Proof.
  intros Hs. unfold trim. destruct s as [|c s]; [done|].
  change (size (c :: s) =? 0) with false. cbv iota.
  unfold find_first_not_of. fold not_blank.
  by rewrite index_first_none.
Qed.

(** Blanks around a part that starts and ends with a character that is
    not blank are removed, and nothing else. *)
Lemma trim_core (l m r : cstring) (c1 c2 : ascii) (t1 t2 : cstring) :
  Forall (λ c, not_blank c = false) l →
  Forall (λ c, not_blank c = false) r →
  m = c1 :: t1 → not_blank c1 = true →
  m = t2 ++ [c2] → not_blank c2 = true →
  size (l ++ m ++ r) < npos →
  trim (l ++ m ++ r) = Ok m.
Proof.
  intros Hl Hr Hm1 Hc1 Hm2 Hc2 Hsize. unfold trim.
  assert (Hlen : size (l ++ m ++ r) = size l + size m + size r).
  { unfold size. rewrite !length_app. lia. }
  assert (0 < size m) by (rewrite Hm1; unfold size; simpl; lia).
  assert (0 <= size l ∧ 0 <= size r) as [??] by (unfold size; lia).
  destruct (Z.eqb_spec (size (l ++ m ++ r)) 0) as [?|_]; [lia|].
  unfold find_first_not_of, find_last_not_of. fold not_blank.
  assert (Hb : index_first not_blank (l ++ m ++ r) = Some (length l)).
  { rewrite Hm1. simpl. by apply index_first_here. }
  assert (He : index_last not_blank (l ++ m ++ r) = Some (length l + length t2)%nat).
  { rewrite Hm2, <- app_assoc. simpl. rewrite app_assoc.
    rewrite index_last_here by done. by rewrite length_app. }
  rewrite Hb, He. unfold position. fold (size l).
  destruct (Z.eqb_spec (0 + size l) npos) as [?|_]; [lia|].
  assert (Hm : size m = Z.of_nat (length t2) + 1).
  { rewrite Hm2. unfold size. rewrite length_app. simpl. lia. }
  replace (0 + Z.of_nat (length l + length t2) - (0 + size l) + 1)
    with (size m) by (unfold size in *; lia).
  unfold substr, wrap.
  rewrite Z.mod_small by (unfold npos in Hsize; lia).
  destruct (Z.ltb_spec (size (l ++ m ++ r)) (0 + size l)) as [?|_]; [lia|].
  f_equal.
  replace (Z.to_nat (0 + size l)) with (length l) by (unfold size; lia).
  rewrite drop_app_length.
  replace (Z.to_nat (Z.min (size m) (size (l ++ m ++ r) - (0 + size l))))
    with (length m) by (unfold size in *; lia).
  by rewrite take_app_length.
Qed.

(** Every string is blank or has such a core. *)
Lemma blank_or_core (s : cstring) :
  Forall (λ c, not_blank c = false) s ∨
  ∃ l m r c1 c2 t1 t2,
    s = l ++ m ++ r ∧
    Forall (λ c, not_blank c = false) l ∧ Forall (λ c, not_blank c = false) r ∧
    m = c1 :: t1 ∧ not_blank c1 = true ∧ m = t2 ++ [c2] ∧ not_blank c2 = true.
Proof.
  destruct (leading_run not_blank s) as (l & rest & -> & Hl & [->|(c1 & t1 & -> & Hc1)]).
  { left. by rewrite app_nil_r. }
  right.
  destruct (trailing_run not_blank (c1 :: t1))
    as (m & r & Hm & Hr & [->|(t2 & c2 & -> & Hc2)]).
  { simpl in Hm. subst r. apply Forall_cons in Hr as [Hc _]. congruence. }
  exists l, (t2 ++ [c2]), r, c1, c2.
  destruct t2 as [|c t2]; simpl in Hm; injection Hm as Hhd Htl; subst.
  - exists [], []. repeat split; done.
  - exists (t2 ++ [c2]), (c :: t2). repeat split; done.
Qed.

Lemma not_blank_false (c : ascii) :
  not_blank c = false ↔ c = " "%char ∨ c = "009"%char ∨ c = "010"%char.
Proof.
  unfold not_blank, in_set, whitespace. rewrite negb_false_iff, bool_decide_eq_true.
  rewrite !elem_of_cons, elem_of_nil. tauto.
Qed.
End Trim.

(** ** [strSplit] *)
Section StrSplit.
Import StdString.
Context (delimiters : cstring).

Local Abbreviation is_delimiter := (in_set delimiters).
Local Abbreviation split := (split_at_every_delimiter delimiters).

Lemma split_not_nil (s : cstring) : split s ≠ [].
Proof.
  destruct s as [|c s]; simpl; [done|].
  destruct (is_delimiter c); [done|]. by destruct (split s).
Qed.

Lemma split_no_delimiter (s : cstring) :
  Forall (λ c, is_delimiter c = false) s → split s = [s].
Proof.
  induction 1 as [|c s Hc _ IH]; simpl; [done|]. by rewrite Hc, IH.
Qed.

(** A delimiter ends the token before it and starts the next one. *)
Lemma split_app_delimiter (u : cstring) (d : ascii) (v : cstring) :
  is_delimiter d = true → split (u ++ d :: v) = split u ++ split v.
Proof.
  intros Hd. induction u as [|c u IH]; simpl.
  - by rewrite Hd.
  - rewrite IH. destruct (is_delimiter c); [done|].
    pose proof (split_not_nil u). by destruct (split u).
Qed.

Lemma split_length (s : cstring) :
  length (split s) = S (length (filter (λ c, is_delimiter c = true) s)).
Proof.
  induction s as [|c s IH]; simpl; [done|].
  rewrite filter_cons. destruct (is_delimiter c) eqn:Hc.
  - rewrite decide_True by done. simpl. by rewrite IH.
  - rewrite decide_False by done. rewrite <- IH.
    pose proof (split_not_nil s). by destruct (split s).
Qed.

Lemma index_first_lt (p : ascii → bool) (s : cstring) (i : nat) :
  index_first p s = Some i → (i < length s)%nat.
Proof.
  revert i. induction s as [|c s IH]; intros i; simpl; [done|].
  destruct (p c); [intros [= <-]; lia|].
  destruct (index_first p s) as [j|]; [|done].
  intros [= <-]. specialize (IH j eq_refl). lia.
Qed.

(** The first token is what precedes the first delimiter. *)
Lemma split_at_first (s : cstring) (i : nat) :
  index_first is_delimiter s = Some i →
  split s = take i s :: split (drop (S i) s).
Proof.
  revert i. induction s as [|c s IH]; intros i; simpl; [done|].
  destruct (is_delimiter c) eqn:Hc; [by intros [= <-]|].
  destruct (index_first is_delimiter s) as [j|]; [|done].
  intros [= <-]. by rewrite (IH j eq_refl).
Qed.

Lemma index_first_none_inv (p : ascii → bool) (s : cstring) :
  index_first p s = None → Forall (λ c, p c = false) s.
Proof.
  induction s as [|c s IH]; simpl; [done|].
  destruct (p c) eqn:Hc; [done|].
  destruct (index_first p s); [done|]. intros _. constructor; auto.
Qed.

(** The loop, started at [lastPos] with enough iterations left, appends
    the tokens of the rest of the string. *)
Lemma strSplit_loop_spec (fuel : nat) (str : cstring) :
  size str < npos →
  ∀ (tokens : list cstring) (lastPos : nat),
    (lastPos <= length str)%nat →
    (length str - lastPos < fuel)%nat →
    strSplit_loop fuel str delimiters tokens (Z.of_nat lastPos)
    = Ok (tokens ++ split (drop lastPos str)).
Proof.
  intros Hsize. unfold size, npos, size_modulus in Hsize.
  induction fuel as [|fuel IH]; intros tokens lastPos Hle Hfuel; [lia|].
  simpl. unfold find_first_of, substr, size.
  rewrite Nat2Z.id.
  destruct (Z.ltb_spec (Z.of_nat (length str)) (Z.of_nat lastPos)) as [?|_]; [lia|].
  destruct (Z.leb_spec (Z.of_nat (length str)) (Z.of_nat lastPos)) as [Hend|Hin].
  - (* at the end of the string *)
    rewrite bool_decide_eq_false_2 by auto.
    rewrite drop_ge by lia. simpl. rewrite take_nil. done.
  - pose proof (length_drop str lastPos) as Hrest.
    destruct (index_first is_delimiter (drop lastPos str)) as [i|] eqn:Hfind.
    + (* a delimiter at [lastPos + i] *)
      pose proof (index_first_lt _ _ _ Hfind) as Hi.
      unfold position, wrap, size_modulus, npos, size_modulus.
      rewrite bool_decide_eq_true_2 by lia.
      rewrite !Z.mod_small by lia.
      replace (Z.of_nat lastPos + Z.of_nat i + 1) with (Z.of_nat (lastPos + i + 1)) by lia.
      rewrite IH by lia.
      rewrite (split_at_first _ _ Hfind), drop_drop, <- app_assoc. simpl.
      do 4 f_equal; [f_equal; lia|f_equal; lia].
    + (* no delimiter left *)
      unfold position, wrap, npos, size_modulus.
      rewrite bool_decide_eq_false_2 by auto.
      rewrite Z.mod_small by lia.
      rewrite take_ge by lia.
      by rewrite split_no_delimiter by by apply index_first_none_inv.
Qed.

(** [strSplit] returns, and returns the splitting at every delimiter. *)
Lemma strSplit_split (str : cstring) :
  size str < npos → strSplit str delimiters = Ok (split str).
Proof.
  intros Hsize. unfold strSplit.
  rewrite (strSplit_loop_spec _ _ Hsize [] 0%nat) by lia. done.
Qed.
End StrSplit.

(** C8. [strSplit] splits at every occurrence of any delimiter character and
    collapses nothing: it returns the tokens of the splitting the
    specification describes, one more than there are delimiter characters
    in the input; the tokens of [u ++ d :: v] are those of [u] followed by
    those of [v]; two consecutive delimiters give an empty token between
    them, a trailing delimiter gives a trailing empty token, an input with
    no delimiter is its own single token, the empty input gives a single
    empty token, and [strSplit("a,,b,", ",")] is ["a"; []; "b"; []]. *)
Theorem strSplit_no_collapsing (str delimiters : cstring) :
  StdString.size str < StdString.npos →
  (∃ tokens, strSplit str delimiters = Ok tokens ∧
     tokens = split_at_every_delimiter delimiters str ∧
     length tokens = S (length (filter (λ c, c ∈ delimiters) str))) ∧
  (∀ u d v, str = u ++ d :: v → d ∈ delimiters →
     ∃ tu tv, strSplit u delimiters = Ok tu ∧ strSplit v delimiters = Ok tv ∧
       strSplit str delimiters = Ok (tu ++ tv)) ∧
  (∀ u d1 d2 v, str = u ++ d1 :: d2 :: v → d1 ∈ delimiters → d2 ∈ delimiters →
     ∃ tu tv, strSplit u delimiters = Ok tu ∧ strSplit v delimiters = Ok tv ∧
       strSplit str delimiters = Ok (tu ++ [[]] ++ tv)) ∧
  (∀ u d, str = u ++ [d] → d ∈ delimiters →
     ∃ tu, strSplit u delimiters = Ok tu ∧
       strSplit str delimiters = Ok (tu ++ [[]])) ∧
  (Forall (λ c, c ∉ delimiters) str → strSplit str delimiters = Ok [str]) ∧
  strSplit [] delimiters = Ok [[]] ∧
  strSplit (lit "a,,b,") (lit ",") = Ok [lit "a"; []; lit "b"; []].
Proof.
  intros Hsize.
  assert (Hin : ∀ d, d ∈ delimiters → StdString.in_set delimiters d = true).
  { intros d Hd. by apply bool_decide_eq_true_2. }
  assert (Hparts : ∀ u w v, str = u ++ w ++ v →
            StdString.size u < StdString.npos ∧ StdString.size v < StdString.npos).
  { intros u w v ->. unfold StdString.size in *. rewrite !length_app in Hsize. lia. }
  repeat split.
  - exists (split_at_every_delimiter delimiters str).
    split; [by apply strSplit_split|]. split; [done|].
    rewrite split_length. f_equal. f_equal. apply list_filter_iff.
    intros c. unfold StdString.in_set. by rewrite bool_decide_eq_true.
  - intros u d v Hstr Hd.
    destruct (Hparts u [d] v Hstr) as [Hu Hv].
    exists (split_at_every_delimiter delimiters u), (split_at_every_delimiter delimiters v).
    rewrite !strSplit_split by done.
    subst str. by rewrite split_app_delimiter by auto.
  - intros u d1 d2 v Hstr Hd1 Hd2.
    destruct (Hparts u [d1; d2] v Hstr) as [Hu Hv].
    exists (split_at_every_delimiter delimiters u), (split_at_every_delimiter delimiters v).
    rewrite !strSplit_split by done.
    subst str. rewrite split_app_delimiter by auto. simpl.
    by rewrite (Hin d2 Hd2).
  - intros u d Hstr Hd.
    destruct (Hparts u [d] [] Hstr) as [Hu _].
    exists (split_at_every_delimiter delimiters u).
    rewrite !strSplit_split by done.
    subst str. by rewrite split_app_delimiter by auto.
  - intros Hnone. rewrite strSplit_split by done.
    rewrite split_no_delimiter; [done|].
    eapply Forall_impl; [exact Hnone|]. intros c Hc. by apply bool_decide_eq_false_2.
Qed.

Lemma strSplit_no_collapsing_witness :
  StdString.size (lit "a,,b,") < StdString.npos ∧
  ∃ tokens, strSplit (lit "a,,b,") (lit ",;") = Ok tokens ∧
    tokens = split_at_every_delimiter (lit ",;") (lit "a,,b,") ∧
    length tokens = S (length (filter (λ c, c ∈ lit ",;") (lit "a,,b,"))).
Proof.
  assert (H : StdString.size (lit "a,,b,") < StdString.npos) by reflexivity.
  split; [exact H|].
  exact (proj1 (strSplit_no_collapsing (lit "a,,b,") (lit ",;") H)).
Defined.

(** C9. [trim] is idempotent: it returns, and trimming its result again
    returns that result unchanged. A string made only of spaces, tabs and
    newlines trims to the empty string, and the empty string is returned
    as it is. *)
Theorem trim_idempotent (s : cstring) :
  StdString.size s < StdString.npos →
  (∃ t, trim s = Ok t ∧ trim t = Ok t) ∧
  (Forall (λ c, c = " "%char ∨ c = "009"%char ∨ c = "010"%char) s → trim s = Ok []) ∧
  trim [] = Ok [].
Proof.
  intros Hsize. split; [|split; [|done]].
  - destruct (blank_or_core s)
      as [Hs|(l & m & r & c1 & c2 & t1 & t2 & -> & Hl & Hr & Hm1 & Hc1 & Hm2 & Hc2)].
    + exists []. by rewrite trim_blank.
    + exists m. split; [by eapply trim_core|].
      rewrite <- (app_nil_r m) at 1. change (trim ([] ++ m ++ []) = Ok m).
      eapply trim_core; eauto.
      unfold StdString.size in *. rewrite !length_app in *. simpl. lia.
  - intros Hs. apply trim_blank.
    eapply Forall_impl; [exact Hs|]. intros c. by rewrite not_blank_false.
Qed.

Lemma trim_idempotent_witness :
  StdString.size (lit "  	 hi
") < StdString.npos ∧
  ∃ t, trim (lit "  	 hi
") = Ok t ∧ trim t = Ok t.
Proof.
  assert (H : StdString.size (lit "  	 hi
") < StdString.npos) by reflexivity.
  split; [exact H|].
  exact (proj1 (trim_idempotent _ H)).
Defined.

(** ** Machine integers *)

Lemma to_int_small (z : Z) : INT_MIN <= z <= INT_MAX → to_int z = z.
Proof.
  unfold INT_MIN, INT_MAX, to_int. intros Hz.
  rewrite Z.mod_small by lia. lia.
Qed.

(** ** [readLine] *)
Section ReadLine.
Import IStream.

Lemma until_newline_found (pre post : cstring) :
  newline ∉ pre → until_newline (pre ++ newline :: post) = (pre, newline :: post).
Proof.
  induction pre as [|c pre IH]; intros Hpre; simpl.
  - done.
  - apply not_elem_of_cons in Hpre as [Hc Hpre].
    rewrite bool_decide_eq_false_2 by done. by rewrite IH.
Qed.

Lemma until_newline_end (pre : cstring) :
  newline ∉ pre → until_newline pre = (pre, []).
Proof.
  induction pre as [|c pre IH]; intros Hpre; simpl; [done|].
  apply not_elem_of_cons in Hpre as [Hc Hpre].
  rewrite bool_decide_eq_false_2 by done. by rewrite IH.
Qed.

(** The macro always finishes within its bound. *)
Lemma G2O_FSKIP_LINE_loop_total (fuel : nat) :
  ∀ (f : istream) (c : ascii),
    (length (unread f) < fuel)%nat → ∃ f', G2O_FSKIP_LINE_loop fuel f c = Ok f'.
Proof.
  induction fuel as [|fuel IH]; intros f c Hfuel; [lia|].
  simpl.
  destruct (negb (bool_decide (c = newline)) && good f && negb (eof f)) eqn:Hgo;
    [|by eauto].
  apply andb_true_iff in Hgo as [Hgo _]. apply andb_true_iff in Hgo as [_ Hgood].
  unfold get_char. rewrite Hgood.
  destruct (unread f) as [|c' rest] eqn:Hunread.
  - destruct fuel as [|fuel]; simpl.
    + rewrite andb_false_r. simpl. eauto.
    + rewrite andb_false_r. simpl. eauto.
  - apply IH. simpl in *. lia.
Qed.

Lemma G2O_FSKIP_LINE_total (f : istream) : ∃ f', G2O_FSKIP_LINE f = Ok f'.
Proof. apply G2O_FSKIP_LINE_loop_total. lia. Qed.

(** On a good stream positioned at a newline it reads that newline only. *)
Lemma G2O_FSKIP_LINE_newline (post : cstring) :
  G2O_FSKIP_LINE {| unread := newline :: post; eofbit := false; failbit := false |}
  = Ok (opened post).
Proof.
  unfold G2O_FSKIP_LINE. simpl. destruct (length post); reflexivity.
Qed.

Lemma readLine_total (is_ : istream) (currentLine : cstring) :
  ∃ r, readLine is_ currentLine = Ok r.
Proof.
  unfold readLine. destruct (eof is_); [by eauto|].
  destruct (get_into is_ []) as [is1 line].
  destruct (G2O_FSKIP_LINE_total (if fail is1 then clear is1 else is1)) as [f' ->].
  eauto.
Qed.

Lemma size_range (s : cstring) :
  StdString.size s <= INT_MAX → INT_MIN <= StdString.size s <= INT_MAX.
Proof. unfold StdString.size, INT_MIN. lia. Qed.

Lemma until_newline_length (s : cstring) :
  (length (until_newline s).1 <= length s)%nat.
Proof.
  induction s as [|c s IH]; simpl; [done|].
  destruct (bool_decide (c = newline)); simpl; [lia|].
  destruct (until_newline s) as [line rest]. simpl in *. lia.
Qed.

(** On a stream whose end-of-file flag is clear the value returned is a
    number of characters, never the sentinel. *)
Lemma readLine_not_sentinel (is_ : istream) (currentLine : cstring) :
  eof is_ = false → StdString.size (unread is_) <= INT_MAX →
  ∃ is' line, readLine is_ currentLine = Ok (StdString.size line, is', line) ∧
    0 <= StdString.size line.
Proof.
  intros Heof Hsize. unfold readLine. rewrite Heof.
  assert (Hline : StdString.size (get_into is_ []).2 <= INT_MAX).
  { unfold get_into. destruct (good is_); [|by vm_compute].
    pose proof (until_newline_length (unread is_)) as Hlen.
    destruct (until_newline (unread is_)) as [line rest]. simpl in *.
    unfold StdString.size in *. lia. }
  destruct (get_into is_ []) as [is1 line]. simpl in Hline.
  destruct (G2O_FSKIP_LINE_total (if fail is1 then clear is1 else is1)) as [f' ->].
  exists f', line. rewrite to_int_small by by apply size_range.
  split; [done|]. unfold StdString.size. lia.
Qed.

Lemma readLine_at_eof (is_ : istream) (currentLine : cstring) :
  eof is_ = true → readLine is_ currentLine = Ok (-1, is_, currentLine).
Proof. intros Heof. unfold readLine. by rewrite Heof. Qed.

Lemma good_not_eof (is_ : istream) : good is_ = true → eof is_ = false.
Proof. unfold good, eof. destruct (eofbit is_); [done|done]. Qed.

Lemma readLine_line (is_ : istream) (currentLine pre post : cstring) :
  good is_ = true → unread is_ = pre ++ newline :: post → newline ∉ pre →
  StdString.size pre <= INT_MAX →
  readLine is_ currentLine = Ok (StdString.size pre, opened post, pre).
Proof.
  intros Hgood Hunread Hpre Hsize. unfold readLine.
  rewrite (good_not_eof _ Hgood). unfold get_into.
  rewrite Hgood, Hunread, until_newline_found by done. simpl.
  replace (if bool_decide (pre = []) then _ else _)
    with {| unread := newline :: post; eofbit := false; failbit := false |}
    by (by destruct (bool_decide (pre = []))).
  rewrite G2O_FSKIP_LINE_newline. by rewrite to_int_small by by apply size_range.
Qed.

Lemma readLine_last_line (is_ : istream) (currentLine pre : cstring) :
  good is_ = true → unread is_ = pre → newline ∉ pre →
  StdString.size pre <= INT_MAX →
  ∃ is', readLine is_ currentLine = Ok (StdString.size pre, is', pre) ∧
    unread is' = [] ∧ eof is' = true.
Proof.
  intros Hgood Hunread Hpre Hsize. unfold readLine.
  rewrite (good_not_eof _ Hgood). unfold get_into.
  rewrite Hgood, Hunread, until_newline_end by done. simpl.
  rewrite to_int_small by by apply size_range.
  destruct pre as [|c pre]; simpl; eauto.
Qed.

(** On a stream that has failed before (its failure flag is set, its
    end-of-file flag is not) nothing is extracted: the call returns 0 and
    the line buffer is empty. *)
Lemma readLine_failed (is_ : istream) (currentLine : cstring) :
  eof is_ = false → fail is_ = true →
  ∃ is', readLine is_ currentLine = Ok (0, is', []).
Proof.
  intros Heof Hfail. unfold readLine. rewrite Heof. unfold get_into, good.
  unfold fail in Hfail. rewrite Hfail, andb_false_r. simpl.
  match goal with
  | |- context [G2O_FSKIP_LINE ?f] => destruct (G2O_FSKIP_LINE_total f) as [f' ->]
  end.
  by exists f'.
Qed.
End ReadLine.

(** C7, as the code has it. Repeated [readLine] calls over ["a\nb\n"] yield
    ["a"], then ["b"], then an empty line with return value 0, and only
    then the end-of-stream sentinel -1: the sentinel is returned exactly
    when the stream's end-of-file flag is already set on entry, which
    reading the last newline does not do (over ["a\nb"], where the last
    line has no newline, the third call does return the sentinel, and
    leaves ["b"] in the line buffer). A call always returns. On a
    stream whose end-of-file flag is set it returns the sentinel and
    touches neither the stream nor the line buffer; otherwise it returns
    the length of the line it extracted; on a good stream it extracts the
    characters before the next newline, discards that newline and returns
    the number of characters extracted (a last line without newline is
    extracted up to the end of the data, which sets the end-of-file
    flag). On a stream that is not good because its failure flag is set,
    with the end-of-file flag clear, it extracts nothing: it returns 0
    and leaves the line buffer empty. *)
Theorem readLine_lines :
  read_lines 4 (IStream.opened (lit "a
b
")) [] = Ok [(1, lit "a"); (1, lit "b"); (0, []); (-1, [])] ∧
  read_lines 3 (IStream.opened (lit "a
b")) [] = Ok [(1, lit "a"); (1, lit "b"); (-1, lit "b")] ∧
  (∀ is_ currentLine, ∃ r, readLine is_ currentLine = Ok r) ∧
  (∀ is_ currentLine,
     IStream.eof is_ = true → readLine is_ currentLine = Ok (-1, is_, currentLine)) ∧
  (∀ is_ currentLine,
     IStream.eof is_ = false → StdString.size (IStream.unread is_) <= INT_MAX →
     ∃ is' line, readLine is_ currentLine = Ok (StdString.size line, is', line) ∧
       0 <= StdString.size line) ∧
  (∀ is_ currentLine pre post,
     IStream.good is_ = true →
     IStream.unread is_ = pre ++ IStream.newline :: post →
     IStream.newline ∉ pre →
     StdString.size pre <= INT_MAX →
     readLine is_ currentLine = Ok (StdString.size pre, IStream.opened post, pre)) ∧
  (∀ is_ currentLine pre,
     IStream.good is_ = true →
     IStream.unread is_ = pre →
     IStream.newline ∉ pre →
     StdString.size pre <= INT_MAX →
     ∃ is', readLine is_ currentLine = Ok (StdString.size pre, is', pre) ∧
       IStream.unread is' = [] ∧ IStream.eof is' = true) ∧
  (∀ is_ currentLine,
     IStream.eof is_ = false → IStream.fail is_ = true →
     ∃ is', readLine is_ currentLine = Ok (0, is', [])).
Proof.
  split; [by vm_compute|].
  split; [by vm_compute|].
  split; [exact readLine_total|].
  split; [exact readLine_at_eof|].
  split; [exact readLine_not_sentinel|].
  split; [exact readLine_line|].
  split; [exact readLine_last_line|exact readLine_failed].
Qed.

Lemma readLine_lines_witness :
  IStream.eof exhausted = true ∧
  readLine exhausted (lit "b") = Ok (-1, exhausted, lit "b") ∧
  IStream.good (IStream.opened (lit "hi
there")) = true ∧
  (IStream.newline ∉ lit "hi") ∧
  StdString.size (lit "hi") <= INT_MAX ∧
  readLine (IStream.opened (lit "hi
there")) (lit "old")
  = Ok (2, IStream.opened (lit "there"), lit "hi") ∧
  (∃ is', readLine (IStream.opened (lit "there")) (lit "hi")
          = Ok (5, is', lit "there") ∧
     IStream.unread is' = [] ∧ IStream.eof is' = true) ∧
  ∃ is', readLine {| IStream.unread := lit "12x
next"; IStream.eofbit := false; IStream.failbit := true |} (lit "old")
         = Ok (0, is', []).
Proof.
  destruct readLine_lines as (_ & _ & _ & Heof & _ & Hline & Hlast & Hfailed).
  assert (Hhi : IStream.newline ∉ lit "hi") by (by apply (bool_decide_unpack _)).
  assert (Hthere : IStream.newline ∉ lit "there") by (by apply (bool_decide_unpack _)).
  split; [reflexivity|].
  split; [by apply Heof|].
  split; [reflexivity|].
  split; [exact Hhi|].
  split; [by vm_compute|].
  split; [|split].
  - apply (Hline (IStream.opened (lit "hi
there")) (lit "old") (lit "hi") (lit "there")); [reflexivity|reflexivity|exact Hhi|].
    by vm_compute.
  - apply (Hlast (IStream.opened (lit "there")) (lit "hi") (lit "there"));
      [reflexivity|reflexivity|exact Hthere|by vm_compute].
  - apply Hfailed; reflexivity.
Defined.

(** The scenario of C7 as the specification words it does not hold: the
    third call over ["a\nb\n"] does not return the sentinel. *)
Lemma readLine_third_call_not_sentinel :
  ¬ ∃ line, read_lines 3 (IStream.opened (lit "a
b
")) [] = Ok [(1, lit "a"); (1, lit "b"); (-1, line)].
Proof. intros [line Hcalls]. vm_compute in Hcalls. discriminate Hcalls. Qed.

(** ** The C runtime *)

Ltac world_simpl :=
  cbn [Libc.heap Libc.next_block Libc.alloc_faults Libc.format_faults
       Libc.trace Libc.log Libc.blk_size Libc.blk_bytes].

Section RuntimeFacts.
Import Libc.
Context (pf : platform).

Lemma bind_returns {A B} (m : M A) (k : A → M B) (w w' : world) (a : A) :
  m w = Returns a w' → (m ≫= k) w = k a w'.
Proof. intros Hm. unfold mbind, M_bind. by rewrite Hm. Qed.

Lemma bind_killed {A B} (m : M A) (k : A → M B) (w w' : world) (s : signal) :
  m w = Killed s w' → (m ≫= k) w = Killed s w'.
Proof. intros Hm. unfold mbind, M_bind. by rewrite Hm. Qed.

Lemma raise_returns (s : signal) (w : world) :
  sigint pf ≠ SIG_DFL → raise pf s w = Returns 0 (log (EvRaise s) w).
Proof. unfold raise. by destruct (sigint pf). Qed.

Lemma raise_kills (s : signal) (w : world) :
  sigint pf = SIG_DFL → raise pf s w = Killed s (log (EvRaise s) w).
Proof. unfold raise. by intros ->. Qed.

Lemma malloc_granted (size : Z) (w : world) :
  next_fault (alloc_faults w) = false →
  malloc size w
  = Returns (next_block w)
      {| heap := <[next_block w := {| blk_size := size; blk_bytes := [] |}]> (heap w);
         next_block := next_block w + 1;
         alloc_faults := tail (alloc_faults w);
         format_faults := format_faults w;
         trace := trace w ++ [EvMalloc size (next_block w)] |}.
Proof. unfold malloc. by intros ->. Qed.

Lemma malloc_refused (size : Z) (w : world) :
  next_fault (alloc_faults w) = true →
  malloc size w
  = Returns NULL
      {| heap := heap w; next_block := next_block w;
         alloc_faults := tail (alloc_faults w);
         format_faults := format_faults w;
         trace := trace w ++ [EvMalloc size NULL] |}.
Proof. unfold malloc. by intros ->. Qed.

Lemma realloc_granted (old size : Z) (b : block) (w : world) :
  heap w !! old = Some b → next_fault (alloc_faults w) = false →
  realloc old size w
  = Returns (next_block w)
      {| heap := <[next_block w :=
                     {| blk_size := size;
                        blk_bytes := take (Z.to_nat (Z.min size (StdString.size (blk_bytes b))))
                                       (blk_bytes b) |}]>
                   (delete old (heap w));
         next_block := next_block w + 1;
         alloc_faults := tail (alloc_faults w);
         format_faults := format_faults w;
         trace := trace w ++ [EvRealloc old size (next_block w)] |}.
Proof. unfold realloc. by intros -> ->. Qed.

Lemma realloc_refused (old size : Z) (b : block) (w : world) :
  heap w !! old = Some b → next_fault (alloc_faults w) = true →
  realloc old size w
  = Returns NULL
      {| heap := heap w; next_block := next_block w;
         alloc_faults := tail (alloc_faults w);
         format_faults := format_faults w;
         trace := trace w ++ [EvRealloc old size NULL] |}.
Proof. unfold realloc. by intros -> ->. Qed.

Lemma free_live (p : Z) (b : block) (w : world) :
  p ≠ NULL → heap w !! p = Some b →
  free p w
  = Returns ()
      {| heap := delete p (heap w); next_block := next_block w;
         alloc_faults := alloc_faults w; format_faults := format_faults w;
         trace := trace w ++ [EvFree p] |}.
Proof.
  intros Hp Hb. unfold free. rewrite Hb.
  by destruct (Z.eqb_spec p NULL).
Qed.

Lemma stored_size (size : Z) (text : cstring) :
  0 < size → StdString.size (stored size text) <= size.
Proof.
  intros Hsize. unfold stored, StdString.size.
  destruct (Z.eqb_spec size 0); [lia|].
  rewrite length_app, length_take. simpl. lia.
Qed.

Lemma stored_whole (size : Z) (text : cstring) :
  StdString.size text < size → stored size text = text ++ [NUL].
Proof.
  unfold stored, StdString.size. intros Hsize.
  destruct (Z.eqb_spec size 0); [lia|].
  by rewrite take_ge by lia.
Qed.

Lemma vsnprintf_returns (buf size : Z) (fmt : cstring) (args : list arg)
    (b : block) (w : world) :
  heap w !! buf = Some b → 0 < size <= blk_size b →
  let r := reported pf (next_fault (format_faults w)) fmt args in
  vsnprintf pf buf size fmt (VaArgs args) w
  = Returns (r, VaIndeterminate)
      {| heap := <[buf := {| blk_size := blk_size b;
                                       blk_bytes := written pf r size fmt args
                                          ++ drop (length (written pf r size fmt args)) (blk_bytes b) |}]>
                   (heap w);
         next_block := next_block w;
         alloc_faults := alloc_faults w;
         format_faults := tail (format_faults w);
         trace := trace w ++ [EvVsnprintf buf size fmt args r] |}.
Proof.
  intros Hb Hsize r. unfold vsnprintf. rewrite Hb. fold r.
  assert (StdString.size (written pf r size fmt args) <= size) as Hfit.
  { unfold written. destruct (r <? 0); [unfold StdString.size; simpl; lia|].
    apply stored_size. lia. }
  destruct (Z.ltb_spec (blk_size b) (StdString.size (written pf r size fmt args))); [lia|done].
Qed.

(** A list a callee has read from cannot be read again. *)
Lemma vsnprintf_indeterminate (buf size : Z) (fmt : cstring) (w : world) :
  vsnprintf pf buf size fmt VaIndeterminate w = Undefined w.
Proof. reflexivity. Qed.

(** What a non-negative report says about the format. *)
Lemma reported_nonneg (fault : bool) (fmt : cstring) (args : list arg) :
  0 <= reported pf fault fmt args →
  ∃ text, fault = false ∧ format pf fmt args = Some text ∧
    reported pf fault fmt args = StdString.size text ∧
    StdString.size text <= INT_MAX.
Proof.
  unfold reported. destruct fault; [lia|].
  destruct (format pf fmt args) as [text|]; [|lia].
  destruct (Z.ltb_spec INT_MAX (StdString.size text)); [lia|]. eauto.
Qed.

Lemma reported_text (fmt : cstring) (args : list arg) (text : cstring) :
  format pf fmt args = Some text → StdString.size text <= INT_MAX →
  reported pf false fmt args = StdString.size text.
Proof.
  intros Hfmt Hsize. unfold reported. rewrite Hfmt.
  by destruct (Z.ltb_spec INT_MAX (StdString.size text)); [lia|].
Qed.

Lemma reported_neg (fault : bool) (fmt : cstring) (args : list arg) :
  reported pf fault fmt args < 0 → reported pf fault fmt args = -1.
Proof.
  unfold reported. destruct fault; [done|].
  destruct (format pf fmt args) as [text|]; [|done].
  destruct (Z.ltb_spec INT_MAX (StdString.size text)); [done|].
  unfold StdString.size. lia.
Qed.
End RuntimeFacts.

(** ** The paths through [portable_vasprintf] *)

(** The size of the second buffer, as the code computes it: [nchars + 1]
    in an [int], converted to [size_t]. *)
Lemma retry_size (n : Z) : 0 <= n < INT_MAX → to_size_t (to_int (n + 1)) = n + 1.
Proof.
  unfold INT_MAX, to_size_t, to_int. intros Hn.
  rewrite (Z.mod_small (n + 1 + 2 ^ 31)) by lia.
  rewrite Z.mod_small by lia. lia.
Qed.

Lemma retry_size_ge (n : Z) : 0 <= n <= INT_MAX → n + 1 <= to_size_t (to_int (n + 1)).
Proof.
  intros Hn. destruct (Z.eq_dec n INT_MAX) as [->|Hne].
  - by vm_compute.
  - rewrite retry_size by lia. lia.
Qed.

Section Paths.
Import Libc.
Context (pf : platform) (w : world) (strp : Z) (fmt : cstring) (args : list arg).
Hypothesis Hsig : sigint pf ≠ SIG_DFL.
Hypothesis Hfresh : fresh w.

Local Abbreviation p := (next_block w).
Local Abbreviation r1 := (reported pf (next_fault (format_faults w)) fmt args).
Local Abbreviation r2 := (reported pf (next_fault (tail (format_faults w))) fmt args).
Local Abbreviation L := (to_size_t (to_int (r1 + 1))).

Lemma next_not_NULL : p ≠ NULL.
Proof. destruct Hfresh as [Hpos _]. unfold NULL. lia. Qed.

Lemma next_unused (k : Z) : 0 <= k → heap w !! (p + k) = None.
Proof. destruct Hfresh as [_ Hnone]. intros Hk. apply Hnone. lia. Qed.

Lemma next_unused_0 : heap w !! p = None.
Proof. rewrite <- (Z.add_0_r p). by apply next_unused. Qed.

(** [malloc] fails. *)
Lemma path_malloc_refused :
  next_fault (alloc_faults w) = true →
  ∃ w', portable_vasprintf pf strp fmt (VaArgs args) w = Returns (-1, strp) w' ∧
    heap w' = heap w ∧
    trace w' = trace w ++ [EvRaise SIGINT; EvMalloc 512 NULL].
Proof.
  intros Hf1. unfold portable_vasprintf.
  erewrite bind_returns by by apply raise_returns.
  erewrite bind_returns by by apply malloc_refused.
  simpl. eexists. split; [reflexivity|]. world_simpl.
  split; [done|]. by rewrite <- app_assoc.
Qed.

(** The run up to the test of what the probe pass reported. *)
Lemma run_probe :
  next_fault (alloc_faults w) = false →
  portable_vasprintf pf strp fmt (VaArgs args) w
  = (if r1 <? 0 then _ ← free p; mret (-1, strp)
     else if r1 <? 512 then mret (r1, p)
     else
       new_buffer ← realloc p L;
       if new_buffer =? NULL then _ ← free p; mret (-1, strp)
       else
         '(nchars, ap) ← vsnprintf pf new_buffer L fmt (VaArgs args);
         strp ← (if nchars <? 0
                 then _ ← free new_buffer; mret strp
                 else mret new_buffer);
         mret (nchars, strp)) (probed pf w fmt args).
Proof.
  intros Hf1. unfold portable_vasprintf.
  erewrite bind_returns by by apply raise_returns.
  erewrite bind_returns by by apply malloc_granted.
  world_simpl.
  destruct (Z.eqb_spec p NULL) as [?|_]; [by destruct next_not_NULL|].
  unfold va_copy.
  erewrite bind_returns; cycle 1.
  { eapply vsnprintf_returns; world_simpl; [apply lookup_insert_eq|].
    world_simpl. done. }
  world_simpl. unfold probed.
  rewrite insert_insert_eq, drop_nil, app_nil_r, <- !app_assoc. reflexivity.
Qed.

(** The probe pass reports an error. *)
Lemma path_probe_error :
  next_fault (alloc_faults w) = false → r1 < 0 →
  ∃ w', portable_vasprintf pf strp fmt (VaArgs args) w = Returns (-1, strp) w' ∧
    heap w' = heap w ∧
    trace w' = trace w ++ [EvRaise SIGINT; EvMalloc 512 p;
                           EvVsnprintf p 512 fmt args r1; EvFree p].
Proof.
  intros Hf1 Hr1. rewrite run_probe by done. unfold probed.
  destruct (Z.ltb_spec r1 0) as [_|?]; [|lia].
  erewrite bind_returns; cycle 1.
  { eapply free_live; [apply next_not_NULL|apply lookup_insert_eq]. }
  eexists. split; [reflexivity|]. world_simpl. split.
  - apply delete_insert_id, next_unused_0.
  - by rewrite <- !app_assoc.
Qed.

(** The text fits the probe buffer. *)
Lemma path_fits (text : cstring) :
  next_fault (alloc_faults w) = false →
  next_fault (format_faults w) = false →
  format pf fmt args = Some text →
  StdString.size text < 512 →
  ∃ w', portable_vasprintf pf strp fmt (VaArgs args) w
        = Returns (StdString.size text, p) w' ∧
    heap w' = <[p := {| blk_size := 512; blk_bytes := text ++ [NUL] |}]> (heap w) ∧
    trace w' = trace w ++ [EvRaise SIGINT; EvMalloc 512 p;
                           EvVsnprintf p 512 fmt args (StdString.size text)].
Proof.
  intros Hf1 Hff Hfmt Hsize. rewrite run_probe by done. unfold probed.
  rewrite Hff, (reported_text pf _ _ text) by (unfold INT_MAX; done || lia).
  destruct (Z.ltb_spec (StdString.size text) 0) as [?|_];
    [unfold StdString.size in *; lia|].
  destruct (Z.ltb_spec (StdString.size text) 512) as [_|?]; [|lia].
  eexists. split; [reflexivity|]. world_simpl. split; [|done].
  unfold written.
  destruct (Z.ltb_spec (StdString.size text) 0) as [?|_];
    [unfold StdString.size in *; lia|].
  rewrite Hfmt. simpl. by rewrite stored_whole.
Qed.

(** The text does not fit, and [realloc] fails. *)
Lemma path_realloc_refused :
  next_fault (alloc_faults w) = false → 512 <= r1 →
  next_fault (tail (alloc_faults w)) = true →
  ∃ w', portable_vasprintf pf strp fmt (VaArgs args) w = Returns (-1, strp) w' ∧
    heap w' = heap w ∧
    trace w' = trace w ++ [EvRaise SIGINT; EvMalloc 512 p;
                           EvVsnprintf p 512 fmt args r1;
                           EvRealloc p L NULL; EvFree p].
Proof.
  intros Hf1 Hr1 Hf2. rewrite run_probe by done.
  destruct (Z.ltb_spec r1 0) as [?|_]; [lia|].
  destruct (Z.ltb_spec r1 512) as [?|_]; [lia|].
  unfold probed.
  erewrite bind_returns; cycle 1.
  { eapply realloc_refused; [apply lookup_insert_eq|done]. }
  simpl.
  erewrite bind_returns; cycle 1.
  { eapply free_live; [apply next_not_NULL|apply lookup_insert_eq]. }
  eexists. split; [reflexivity|]. world_simpl. split.
  - apply delete_insert_id, next_unused_0.
  - by rewrite <- !app_assoc.
Qed.

(** The state when [realloc] has returned the second buffer. *)
Lemma run_realloc (k : Z → M (Z * Z)) :
  512 <= r1 → next_fault (tail (alloc_faults w)) = false →
  (new_buffer ← realloc p L; k new_buffer) (probed pf w fmt args)
  = k (p + 1)
      {| heap := <[p + 1 := {| blk_size := L;
                               blk_bytes := written pf r1 512 fmt args |}]> (heap w);
         next_block := p + 1 + 1;
         alloc_faults := tail (tail (alloc_faults w));
         format_faults := tail (format_faults w);
         trace := trace w ++ [EvRaise SIGINT; EvMalloc 512 p;
                              EvVsnprintf p 512 fmt args r1;
                              EvRealloc p L (p + 1)] |}.
Proof.
  intros Hr1 Hf2.
  assert (Hpos : 0 <= r1) by lia.
  destruct (reported_nonneg pf _ fmt args Hpos) as (text & _ & Hfmt & Hr & Hmax).
  unfold probed.
  erewrite bind_returns; cycle 1.
  { eapply realloc_granted; [apply lookup_insert_eq|done]. }
  world_simpl. f_equal. f_equal.
  - rewrite delete_insert_id by apply next_unused_0. do 2 f_equal.
    apply take_ge.
    assert (StdString.size (written pf r1 512 fmt args) <= 512).
    { unfold written. destruct (r1 <? 0); [by vm_compute|]. by apply stored_size. }
    assert (r1 + 1 <= L) by (apply retry_size_ge; lia).
    unfold StdString.size in *. lia.
  - by rewrite <- !app_assoc.
Qed.

(** The retry pass reports an error. *)
Lemma path_retry_error :
  next_fault (alloc_faults w) = false → 512 <= r1 →
  next_fault (tail (alloc_faults w)) = false → r2 < 0 →
  ∃ w', portable_vasprintf pf strp fmt (VaArgs args) w = Returns (r2, strp) w' ∧
    heap w' = heap w ∧
    trace w' = trace w ++ [EvRaise SIGINT; EvMalloc 512 p;
                           EvVsnprintf p 512 fmt args r1;
                           EvRealloc p L (p + 1);
                           EvVsnprintf (p + 1) L fmt args r2; EvFree (p + 1)].
Proof.
  intros Hf1 Hr1 Hf2 Hr2. rewrite run_probe by done.
  destruct (Z.ltb_spec r1 0) as [?|_]; [lia|].
  destruct (Z.ltb_spec r1 512) as [?|_]; [lia|].
  rewrite run_realloc by done.
  destruct (Z.eqb_spec (p + 1) NULL) as [Hn|_];
    [pose proof next_not_NULL; destruct Hfresh; unfold NULL in *; lia|].
  assert (Hpos : 0 <= r1) by lia.
  destruct (reported_nonneg pf _ fmt args Hpos) as (text & _ & Hfmt & Hr & Hmax).
  assert (HL : r1 + 1 <= L) by (apply retry_size_ge; lia).
  erewrite bind_returns; cycle 1.
  { eapply vsnprintf_returns; world_simpl; [apply lookup_insert_eq|].
    world_simpl. lia. }
  world_simpl.
  destruct (Z.ltb_spec r2 0) as [_|?]; [|lia].
  erewrite bind_returns; cycle 1.
  { erewrite bind_returns; [reflexivity|].
    eapply free_live; world_simpl; [|apply lookup_insert_eq].
    destruct Hfresh. unfold NULL. lia. }
  eexists. split; [reflexivity|]. world_simpl. split.
  - rewrite insert_insert_eq. apply delete_insert_id, next_unused. lia.
  - by rewrite <- !app_assoc.
Qed.

(** The retry pass succeeds. *)
Lemma path_retried (text : cstring) :
  next_fault (alloc_faults w) = false →
  next_fault (format_faults w) = false →
  format pf fmt args = Some text →
  512 <= StdString.size text <= INT_MAX →
  next_fault (tail (alloc_faults w)) = false →
  next_fault (tail (format_faults w)) = false →
  let n := StdString.size text in
  let size := to_size_t (to_int (n + 1)) in
  ∃ w', portable_vasprintf pf strp fmt (VaArgs args) w = Returns (n, p + 1) w' ∧
    heap w' = <[p + 1 := {| blk_size := size; blk_bytes := text ++ [NUL] |}]> (heap w) ∧
    trace w' = trace w ++ [EvRaise SIGINT; EvMalloc 512 p;
                           EvVsnprintf p 512 fmt args n;
                           EvRealloc p size (p + 1);
                           EvVsnprintf (p + 1) size fmt args n].
Proof.
  intros Hf1 Hff1 Hfmt Hsize Hf2 Hff2 n size.
  assert (Hr1 : r1 = n) by (rewrite Hff1; apply reported_text; [done|lia]).
  assert (Hr2 : r2 = n) by (rewrite Hff2; apply reported_text; [done|lia]).
  assert (HL : n + 1 <= size) by (apply retry_size_ge; lia).
  rewrite run_probe by done. rewrite Hr1. fold n. fold size.
  destruct (Z.ltb_spec n 0) as [?|_]; [lia|].
  destruct (Z.ltb_spec n 512) as [?|_]; [lia|].
  pose proof run_realloc as Hre. rewrite Hr1 in Hre. fold n size in Hre.
  rewrite Hre by (done || lia). clear Hre.
  destruct (Z.eqb_spec (p + 1) NULL) as [Hn|_];
    [destruct Hfresh; unfold NULL in *; lia|].
  erewrite bind_returns; cycle 1.
  { eapply vsnprintf_returns; world_simpl; [apply lookup_insert_eq|].
    world_simpl. lia. }
  world_simpl. rewrite Hr2.
  destruct (Z.ltb_spec n 0) as [?|_]; [lia|].
  erewrite bind_returns by reflexivity.
  eexists. split; [reflexivity|]. world_simpl. split.
  - rewrite insert_insert_eq. do 2 f_equal.
    unfold written.
    destruct (Z.ltb_spec n 0) as [?|_]; [lia|].
    rewrite Hfmt. simpl.
    rewrite (stored_whole size) by (fold n; lia).
    rewrite drop_ge; [by rewrite app_nil_r|].
    assert (StdString.size (stored 512 text) <= 512) by by apply stored_size.
    unfold StdString.size in *. rewrite length_app. simpl. lia.
  - by rewrite <- !app_assoc.
Qed.

Local Abbreviation f1 := (next_fault (alloc_faults w)).
Local Abbreviation f2 := (next_fault (tail (alloc_faults w))).

(** Every call leaves by one of six ways, each with its own calls into
    the runtime. *)
Lemma portable_vasprintf_exits :
  ∃ (e : exit) (res : Z * Z) (w' : world) (calls : list event),
    portable_vasprintf pf strp fmt (VaArgs args) w = Returns res w' ∧
    trace w' = trace w ++ calls ∧
    match e with
    | MallocRefused =>
        f1 = true ∧ res = (-1, strp) ∧ heap w' = heap w ∧
        calls = [EvRaise SIGINT; EvMalloc 512 NULL]
    | ProbeError =>
        f1 = false ∧ r1 < 0 ∧ res = (-1, strp) ∧ heap w' = heap w ∧
        calls = [EvRaise SIGINT; EvMalloc 512 p; EvVsnprintf p 512 fmt args r1;
                 EvFree p]
    | Fits =>
        f1 = false ∧ 0 <= r1 < 512 ∧ res = (r1, p) ∧
        (∃ b, heap w' = <[p := b]> (heap w) ∧ blk_size b = 512) ∧
        calls = [EvRaise SIGINT; EvMalloc 512 p; EvVsnprintf p 512 fmt args r1]
    | ReallocRefused =>
        f1 = false ∧ 512 <= r1 ∧ f2 = true ∧ res = (-1, strp) ∧ heap w' = heap w ∧
        calls = [EvRaise SIGINT; EvMalloc 512 p; EvVsnprintf p 512 fmt args r1;
                 EvRealloc p L NULL; EvFree p]
    | RetryError =>
        f1 = false ∧ 512 <= r1 ∧ f2 = false ∧ r2 < 0 ∧
        res = (-1, strp) ∧ heap w' = heap w ∧
        calls = [EvRaise SIGINT; EvMalloc 512 p; EvVsnprintf p 512 fmt args r1;
                 EvRealloc p L (p + 1); EvVsnprintf (p + 1) L fmt args r2;
                 EvFree (p + 1)]
    | Retried =>
        f1 = false ∧ 512 <= r1 ∧ f2 = false ∧ 0 <= r2 ∧ res = (r2, p + 1) ∧
        (∃ b, heap w' = <[p + 1 := b]> (heap w) ∧ blk_size b = L) ∧
        calls = [EvRaise SIGINT; EvMalloc 512 p; EvVsnprintf p 512 fmt args r1;
                 EvRealloc p L (p + 1); EvVsnprintf (p + 1) L fmt args r2]
    end.
Proof.
  destruct f1 eqn:Hf1.
  { destruct (path_malloc_refused Hf1) as (w' & Hrun & Hheap & Htrace).
    by exists MallocRefused, (-1, strp), w', [EvRaise SIGINT; EvMalloc 512 NULL]. }
  destruct (Z.lt_ge_cases r1 0) as [Hneg|Hpos].
  { destruct (path_probe_error Hf1 Hneg) as (w' & Hrun & Hheap & Htrace).
    exists ProbeError, (-1, strp), w'. eexists.
    split; [exact Hrun|]. split; [exact Htrace|]. done. }
  destruct (reported_nonneg pf _ fmt args Hpos) as (text & Hff1 & Hfmt & Hr1 & Hmax).
  destruct (Z.lt_ge_cases r1 512) as [Hfit|Hbig].
  { destruct (path_fits text Hf1 Hff1 Hfmt ltac:(lia)) as (w' & Hrun & Hheap & Htrace).
    exists Fits, (r1, p), w'. rewrite Hr1. eexists.
    split; [exact Hrun|]. split; [exact Htrace|].
    split; [done|]. split; [lia|]. split; [done|]. split; [|done].
    eexists. split; [exact Hheap|done]. }
  destruct f2 eqn:Hf2.
  { destruct (path_realloc_refused Hf1 Hbig Hf2) as (w' & Hrun & Hheap & Htrace).
    exists ReallocRefused, (-1, strp), w'. eexists.
    split; [exact Hrun|]. split; [exact Htrace|]. done. }
  destruct (Z.lt_ge_cases r2 0) as [Hneg2|Hpos2].
  { destruct (path_retry_error Hf1 Hbig Hf2 Hneg2) as (w' & Hrun & Hheap & Htrace).
    exists RetryError, (-1, strp), w'. eexists.
    rewrite <- (reported_neg pf _ _ _ Hneg2) at 1.
    split; [exact Hrun|]. split; [exact Htrace|]. done. }
  destruct (reported_nonneg pf _ fmt args Hpos2) as (text2 & Hff2 & Hfmt2 & Hr2 & _).
  destruct (path_retried text Hf1 Hff1 Hfmt ltac:(lia) Hf2 Hff2)
    as (w' & Hrun & Hheap & Htrace).
  assert (text2 = text) as -> by congruence.
  exists Retried, (r2, p + 1), w'. rewrite Hr2, Hr1. eexists.
  split; [exact Hrun|]. split; [exact Htrace|].
  split; [done|]. split; [lia|]. split; [done|]. split; [unfold StdString.size; lia|].
  split; [done|]. split; [|done].
  eexists. split; [exact Hheap|done].
Qed.

(** What the caller owns after each way out. *)
Lemma ledger_after_exit (e : exit) :
  let first := [EvRaise SIGINT; EvMalloc 512 p; EvVsnprintf p 512 fmt args r1] in
  ledger []
    match e with
    | MallocRefused => [EvRaise SIGINT; EvMalloc 512 NULL]
    | ProbeError => first ++ [EvFree p]
    | Fits => first
    | ReallocRefused => first ++ [EvRealloc p L NULL; EvFree p]
    | RetryError =>
        first ++ [EvRealloc p L (p + 1); EvVsnprintf (p + 1) L fmt args r2;
                  EvFree (p + 1)]
    | Retried =>
        first ++ [EvRealloc p L (p + 1); EvVsnprintf (p + 1) L fmt args r2]
    end
  = Some match e with
         | Fits => [p]
         | Retried => [p + 1]
         | _ => []
         end.
Proof.
  pose proof next_not_NULL as Hp.
  assert (Hp1 : p + 1 ≠ NULL) by (destruct Hfresh; unfold NULL; lia).
  destruct e; simpl; unfold owns, disown; simpl;
    repeat first
      [ rewrite Z.eqb_refl; simpl
      | rewrite (proj2 (Z.eqb_neq (p + 1) NULL)) by done; simpl
      | rewrite (proj2 (Z.eqb_neq p NULL)) by done; simpl ];
    reflexivity.
Qed.
End Paths.

(** ** The formatted-string builder *)

(** Reading back, as a C string, a text that a terminator follows. *)
Lemma until_NUL_terminated (text rest : cstring) :
  Libc.NUL ∉ text → Libc.until_NUL (text ++ Libc.NUL :: rest) = Some text.
Proof.
  induction text as [|c text IH]; intros Htext; simpl.
  - done.
  - apply not_elem_of_cons in Htext as [Hc Htext].
    rewrite bool_decide_eq_false_2 by done. by rewrite IH.
Qed.

(** C1, as the code has it. When the process survives the signal raised on
    entry and the runtime injects no failure, a format whose rendered text
    is shorter than the probe capacity of 512 succeeds on the first pass:
    [vsnprintf] is called once, [realloc] is not called and nothing is
    rendered again, the value returned is the length of the text, and the
    caller receives the probe buffer itself, a block of 512 bytes (not of
    length + 1 bytes) whose first length + 1 bytes are the rendered text
    and its terminator, so that the caller reads the text back from it. *)
Theorem portable_vasprintf_first_pass (pf : Libc.platform) (w : Libc.world)
    (strp : Z) (fmt : cstring) (args : list Libc.arg) (text : cstring) :
  Libc.sigint pf ≠ Libc.SIG_DFL →
  Libc.fresh w →
  Libc.next_fault (Libc.alloc_faults w) = false →
  Libc.next_fault (Libc.format_faults w) = false →
  Libc.format pf fmt args = Some text →
  StdString.size text < 512 →
  let n := StdString.size text in
  let buffer := Libc.next_block w in
  ∃ w' calls,
    portable_vasprintf pf strp fmt (Libc.VaArgs args) w = Libc.Returns (n, buffer) w' ∧
    Libc.heap w' = <[buffer := {| Libc.blk_size := 512;
                                  Libc.blk_bytes := text ++ [Libc.NUL] |}]> (Libc.heap w) ∧
    Libc.trace w' = Libc.trace w ++ calls ∧
    calls = [Libc.EvRaise Libc.SIGINT; Libc.EvMalloc 512 buffer;
             Libc.EvVsnprintf buffer 512 fmt args n] ∧
    length (List.filter Libc.is_rendering calls) = 1%nat ∧
    existsb Libc.is_realloc calls = false ∧
    (Libc.NUL ∉ text → Libc.string_of buffer w' = Libc.Returns text w').
Proof.
  intros Hsig Hfresh Hf1 Hff1 Hfmt Hsize n buffer.
  destruct (path_fits pf w strp fmt args Hsig Hfresh text Hf1 Hff1 Hfmt Hsize)
    as (w' & Hrun & Hheap & Htrace).
  exists w', [Libc.EvRaise Libc.SIGINT; Libc.EvMalloc 512 buffer;
              Libc.EvVsnprintf buffer 512 fmt args n].
  split; [exact Hrun|]. split; [exact Hheap|]. split; [exact Htrace|].
  split; [reflexivity|]. split; [reflexivity|]. split; [reflexivity|].
  intros Htext. unfold Libc.string_of.
  destruct (Z.eqb_spec buffer Libc.NULL) as [Hnull|_].
  { by destruct (next_not_NULL w Hfresh). }
  rewrite Hheap, lookup_insert_eq. simpl.
  by rewrite until_NUL_terminated.
Qed.

Lemma portable_vasprintf_first_pass_witness :
  let fmt := lit "%s has %d items" in
  let args := [Libc.ArgStr (lit "cart"); Libc.ArgInt 3] in
  ∃ w' calls,
    portable_vasprintf Demo.ignoring 0 fmt (Libc.VaArgs args) (Demo.start [] [])
    = Libc.Returns (16, 1) w' ∧
    Libc.heap w' = <[1 := {| Libc.blk_size := 512;
                             Libc.blk_bytes := lit "cart has 3 items" ++ [Libc.NUL] |}]> ∅ ∧
    Libc.trace w' = [] ++ calls ∧
    calls = [Libc.EvRaise Libc.SIGINT; Libc.EvMalloc 512 1;
             Libc.EvVsnprintf 1 512 fmt args 16] ∧
    length (List.filter Libc.is_rendering calls) = 1%nat ∧
    existsb Libc.is_realloc calls = false ∧
    (Libc.NUL ∉ lit "cart has 3 items" →
     Libc.string_of 1 w' = Libc.Returns (lit "cart has 3 items") w').
Proof.
  apply (portable_vasprintf_first_pass Demo.ignoring (Demo.start [] []) 0
           (lit "%s has %d items") [Libc.ArgStr (lit "cart"); Libc.ArgInt 3]
           (lit "cart has 3 items")).
  - discriminate.
  - split; [reflexivity|]. intros p _. apply lookup_empty.
  - reflexivity.
  - reflexivity.
  - reflexivity.
  - reflexivity.
Defined.

(** C1 as the specification words it does not hold: for the empty format,
    whose rendered length is 0, the buffer handed to the caller has 512
    bytes and not 0 + 1. *)
Lemma first_pass_buffer_is_not_exact :
  ∃ w' b,
    portable_vasprintf Demo.ignoring 0 [] (Libc.VaArgs []) (Demo.start [] [])
    = Libc.Returns (0, 1) w' ∧
    Libc.heap w' !! 1 = Some b ∧
    Libc.blk_size b = 512 ∧
    Libc.blk_size b ≠ 0 + 1.
Proof.
  eexists _, _. split; [by vm_compute|]. split; [by vm_compute|]. by split.
Qed.

(** C2. The fit test is strict. Once the probe pass has reported a
    required length [r] (the process survived the signal, the probe buffer
    was granted and the report is not an error), the call returns, and it
    took the retry pass, growing the buffer with [realloc], if and only if
    [512 <= r]. With [r < 512], and so with [r = 511], it succeeds on the
    first pass with a single rendering; with [r = 512] it takes the retry
    pass; and when the retry pass gets its buffer, the text is rendered a
    second time. *)
Theorem fit_test_is_strict (pf : Libc.platform) (w : Libc.world)
    (strp : Z) (fmt : cstring) (args : list Libc.arg) :
  Libc.sigint pf ≠ Libc.SIG_DFL →
  Libc.fresh w →
  Libc.next_fault (Libc.alloc_faults w) = false →
  let r := Libc.reported pf (Libc.next_fault (Libc.format_faults w)) fmt args in
  0 <= r →
  ∃ res w' calls,
    portable_vasprintf pf strp fmt (Libc.VaArgs args) w = Libc.Returns res w' ∧
    Libc.trace w' = Libc.trace w ++ calls ∧
    (existsb Libc.is_realloc calls = true ↔ 512 <= r) ∧
    (r < 512 →
       res = (r, Libc.next_block w) ∧
       length (List.filter Libc.is_rendering calls) = 1%nat) ∧
    (r = 511 → existsb Libc.is_realloc calls = false ∧ res = (511, Libc.next_block w)) ∧
    (r = 512 → existsb Libc.is_realloc calls = true) ∧
    (512 <= r → Libc.next_fault (tail (Libc.alloc_faults w)) = false →
       length (List.filter Libc.is_rendering calls) = 2%nat).
Proof.
  intros Hsig Hfresh Hf1 r Hr.
  destruct (portable_vasprintf_exits pf w strp fmt args Hsig Hfresh)
    as (e & res & w' & calls & Hrun & Htrace & He).
  exists res, w', calls. split; [exact Hrun|]. split; [exact Htrace|].
  fold r in He. clearbody r.
  destruct e.
  - destruct He as (Hf & _). congruence.
  - destruct He as (_ & Hneg & _). lia.
  - destruct He as (_ & Hfit & -> & _ & ->). simpl.
    split_and!; try done; try lia. by intros ->.
  - destruct He as (_ & Hbig & Hf2 & _ & _ & ->). simpl.
    split_and!; try done; try lia. intros. congruence.
  - destruct He as (_ & Hbig & Hf2 & _ & _ & _ & ->). simpl.
    split_and!; try done; lia.
  - destruct He as (_ & Hbig & Hf2 & _ & _ & _ & ->). simpl.
    split_and!; try done; lia.
Qed.

Lemma fit_test_is_strict_witness :
  (∃ res w' calls,
     portable_vasprintf Demo.ignoring 0 (Demo.plain 511) (Libc.VaArgs [])
       (Demo.start [] []) = Libc.Returns res w' ∧
     Libc.trace w' = [] ++ calls ∧
     (existsb Libc.is_realloc calls = true ↔ 512 <= 511) ∧
     (511 < 512 → res = (511, 1) ∧ length (List.filter Libc.is_rendering calls) = 1%nat) ∧
     (511 = 511 → existsb Libc.is_realloc calls = false ∧ res = (511, 1)) ∧
     (511 = 512 → existsb Libc.is_realloc calls = true) ∧
     (512 <= 511 → false = false →
        length (List.filter Libc.is_rendering calls) = 2%nat)) ∧
  (∃ res w' calls,
     portable_vasprintf Demo.ignoring 0 (Demo.plain 512) (Libc.VaArgs [])
       (Demo.start [] []) = Libc.Returns res w' ∧
     Libc.trace w' = [] ++ calls ∧
     (existsb Libc.is_realloc calls = true ↔ 512 <= 512) ∧
     (512 < 512 → res = (512, 1) ∧ length (List.filter Libc.is_rendering calls) = 1%nat) ∧
     (512 = 511 → existsb Libc.is_realloc calls = false ∧ res = (511, 1)) ∧
     (512 = 512 → existsb Libc.is_realloc calls = true) ∧
     (512 <= 512 → false = false →
        length (List.filter Libc.is_rendering calls) = 2%nat)).
Proof.
  assert (Hfresh : Libc.fresh (Demo.start [] [])).
  { split; [reflexivity|]. intros p _. apply lookup_empty. }
  split.
  - apply (fit_test_is_strict Demo.ignoring (Demo.start [] []) 0
             (Demo.plain 511) []); [discriminate|exact Hfresh|reflexivity|].
    by vm_compute.
  - apply (fit_test_is_strict Demo.ignoring (Demo.start [] []) 0
             (Demo.plain 512) []); [discriminate|exact Hfresh|reflexivity|].
    by vm_compute.
Defined.

(** C3. When the process survives the signal raised on entry and the
    runtime injects no failure, a format whose rendered text has a length
    [n] of at least the probe capacity, with [n + 1] still an [int], makes
    the builder ask [realloc] for a second buffer of [n + 1] bytes and
    render the same format a second time with the same arguments: the
    probe pass read the copy taken with [va_copy], the retry pass reads
    the original list, which no call has read (reading a list a callee has
    read is undefined in this model, and the call returns). The caller
    receives that second buffer, which holds what the reference formatter
    gives for the format and arguments, followed by the terminator; the
    probe buffer is gone. *)
Theorem portable_vasprintf_retry (pf : Libc.platform) (w : Libc.world)
    (strp : Z) (fmt : cstring) (args : list Libc.arg) (text : cstring) :
  Libc.sigint pf ≠ Libc.SIG_DFL →
  Libc.fresh w →
  Libc.next_fault (Libc.alloc_faults w) = false →
  Libc.next_fault (Libc.format_faults w) = false →
  Libc.next_fault (tail (Libc.alloc_faults w)) = false →
  Libc.next_fault (tail (Libc.format_faults w)) = false →
  Libc.format pf fmt args = Some text →
  512 <= StdString.size text < INT_MAX →
  let n := StdString.size text in
  let buffer := Libc.next_block w in
  let new_buffer := Libc.next_block w + 1 in
  ∃ w', portable_vasprintf pf strp fmt (Libc.VaArgs args) w
        = Libc.Returns (n, new_buffer) w' ∧
    Libc.heap w' = <[new_buffer := {| Libc.blk_size := n + 1;
                                      Libc.blk_bytes := text ++ [Libc.NUL] |}]>
                     (Libc.heap w) ∧
    Libc.trace w' = Libc.trace w ++ [Libc.EvRaise Libc.SIGINT;
                                     Libc.EvMalloc 512 buffer;
                                     Libc.EvVsnprintf buffer 512 fmt args n;
                                     Libc.EvRealloc buffer (n + 1) new_buffer;
                                     Libc.EvVsnprintf new_buffer (n + 1) fmt args n].
Proof.
  intros Hsig Hfresh Hf1 Hff1 Hf2 Hff2 Hfmt Hsize n buffer new_buffer.
  destruct (path_retried pf w strp fmt args Hsig Hfresh text Hf1 Hff1 Hfmt
              ltac:(lia) Hf2 Hff2) as (w' & Hrun & Hheap & Htrace).
  fold n in Hrun, Hheap, Htrace.
  rewrite (retry_size n) in Hheap, Htrace by (subst n; lia).
  by exists w'.
Qed.

Lemma portable_vasprintf_retry_witness :
  let text := Demo.plain 1000 in
  ∃ w', portable_vasprintf Demo.ignoring 0 text (Libc.VaArgs []) (Demo.start [] [])
        = Libc.Returns (1000, 1 + 1) w' ∧
    Libc.heap w' = <[1 + 1 := {| Libc.blk_size := 1000 + 1;
                                 Libc.blk_bytes := text ++ [Libc.NUL] |}]> ∅ ∧
    Libc.trace w' = [] ++ [Libc.EvRaise Libc.SIGINT; Libc.EvMalloc 512 1;
                           Libc.EvVsnprintf 1 512 text [] 1000;
                           Libc.EvRealloc 1 (1000 + 1) (1 + 1);
                           Libc.EvVsnprintf (1 + 1) (1000 + 1) text [] 1000].
Proof.
  apply (portable_vasprintf_retry Demo.ignoring (Demo.start [] []) 0
           (Demo.plain 1000) [] (Demo.plain 1000)).
  - discriminate.
  - split; [reflexivity|]. intros p _. apply lookup_empty.
  - reflexivity.
  - reflexivity.
  - reflexivity.
  - reflexivity.
  - by vm_compute.
  - by vm_compute.
Defined.

(** C4. On every failure path of the builder ([malloc] fails; the probe
    pass reports a negative value; [realloc] fails; the retry pass reports
    a negative value) the call returns a negative value, leaves [*strp] as
    it was, and has released every buffer it allocated: the heap is what
    it was before the call and the caller owns no block. Failure is
    distinct from success: a call returns a negative value exactly on
    these paths. *)
Theorem failure_paths_release_everything (pf : Libc.platform) (w : Libc.world)
    (strp : Z) (fmt : cstring) (args : list Libc.arg) :
  Libc.sigint pf ≠ Libc.SIG_DFL →
  Libc.fresh w →
  let malloc_fails := Libc.next_fault (Libc.alloc_faults w) in
  let probe := Libc.reported pf (Libc.next_fault (Libc.format_faults w)) fmt args in
  let realloc_fails := Libc.next_fault (tail (Libc.alloc_faults w)) in
  let retry := Libc.reported pf (Libc.next_fault (tail (Libc.format_faults w))) fmt args in
  let failure :=
    malloc_fails = true ∨
    (malloc_fails = false ∧ probe < 0) ∨
    (malloc_fails = false ∧ 512 <= probe ∧ realloc_fails = true) ∨
    (malloc_fails = false ∧ 512 <= probe ∧ realloc_fails = false ∧ retry < 0) in
  ∃ ret strp' w' calls,
    portable_vasprintf pf strp fmt (Libc.VaArgs args) w = Libc.Returns (ret, strp') w' ∧
    Libc.trace w' = Libc.trace w ++ calls ∧
    (ret < 0 ↔ failure) ∧
    (failure →
       strp' = strp ∧ Libc.heap w' = Libc.heap w ∧ Libc.ledger [] calls = Some []).
Proof.
  intros Hsig Hfresh malloc_fails probe realloc_fails retry failure.
  destruct (portable_vasprintf_exits pf w strp fmt args Hsig Hfresh)
    as (e & [ret strp'] & w' & calls & Hrun & Htrace & He).
  pose proof (ledger_after_exit pf w fmt args Hfresh e) as Hledger.
  fold malloc_fails probe realloc_fails retry in He.
  exists ret, strp', w', calls. split; [exact Hrun|]. split; [exact Htrace|].
  subst failure. clearbody malloc_fails probe realloc_fails retry.
  destruct e; simpl in Hledger.
  - destruct He as (Hf1 & [= -> ->] & Hheap & ->).
    split; [split; [auto|lia]|]. done.
  - destruct He as (Hf1 & Hneg & [= -> ->] & Hheap & ->).
    split; [split; [auto|lia]|]. done.
  - destruct He as (Hf1 & Hfit & [= -> ->] & _ & ->).
    assert (Hno : ¬ (malloc_fails = true ∨ malloc_fails = false ∧ probe < 0 ∨
                     malloc_fails = false ∧ 512 <= probe ∧ realloc_fails = true ∨
                     malloc_fails = false ∧ 512 <= probe ∧ realloc_fails = false ∧ retry < 0)).
    { intros [?|[[_ ?]|[(_ & ? & _)|(_ & ? & _)]]]; (congruence || lia). }
    split; [split; [lia|done]|done].
  - destruct He as (Hf1 & Hbig & Hf2 & [= -> ->] & Hheap & ->).
    split; [split; [auto 6|lia]|]. done.
  - destruct He as (Hf1 & Hbig & Hf2 & Hneg & [= -> ->] & Hheap & ->).
    split; [split; [auto 8|lia]|]. done.
  - destruct He as (Hf1 & Hbig & Hf2 & Hpos & [= -> ->] & _ & ->).
    assert (Hno : ¬ (malloc_fails = true ∨ malloc_fails = false ∧ probe < 0 ∨
                     malloc_fails = false ∧ 512 <= probe ∧ realloc_fails = true ∨
                     malloc_fails = false ∧ 512 <= probe ∧ realloc_fails = false ∧ retry < 0)).
    { intros [?|[[_ ?]|[(_ & _ & ?)|(_ & _ & _ & ?)]]]; (congruence || lia). }
    split; [split; [lia|done]|done].
Qed.

Lemma failure_paths_release_everything_witness :
  let failed (fmt : cstring) (w : Libc.world) :=
    ∃ ret w' calls,
      portable_vasprintf Demo.ignoring 0 fmt (Libc.VaArgs []) w
      = Libc.Returns (ret, 0) w' ∧
      Libc.trace w' = Libc.trace w ++ calls ∧
      ret < 0 ∧ Libc.heap w' = Libc.heap w ∧ Libc.ledger [] calls = Some [] in
  failed (lit "hello") (Demo.start [true] []) ∧
  failed (lit "hello %q") (Demo.start [] []) ∧
  failed (Demo.plain 600) (Demo.start [false; true] []) ∧
  failed (Demo.plain 600) (Demo.start [false; false] [false; true]).
Proof.
  assert (Hfresh : ∀ a f, Libc.fresh (Demo.start a f)).
  { intros a f. split; [reflexivity|]. intros p _. apply lookup_empty. }
  assert (Hsig : Libc.sigint Demo.ignoring ≠ Libc.SIG_DFL) by discriminate.
  intros failed. subst failed. cbv beta. split_and!.
  - destruct (failure_paths_release_everything Demo.ignoring
                (Demo.start [true] []) 0 (lit "hello") [] Hsig (Hfresh _ _))
      as (ret & strp' & w' & calls & Hrun & Htrace & Hneg & Hfail).
    assert (Hpath : true = true) by reflexivity.
    destruct (Hfail (or_introl Hpath)) as (-> & Hheap & Hledger).
    exists ret, w', calls. split_and!; try done. apply Hneg. by left.
  - destruct (failure_paths_release_everything Demo.ignoring
                (Demo.start [] []) 0 (lit "hello %q") [] Hsig (Hfresh _ _))
      as (ret & strp' & w' & calls & Hrun & Htrace & Hneg & Hfail).
    assert (Hpath : false = false ∧ -1 < 0) by (split; reflexivity).
    destruct (Hfail (or_intror (or_introl Hpath))) as (-> & Hheap & Hledger).
    exists ret, w', calls. split_and!; try done. apply Hneg. right. by left.
  - destruct (failure_paths_release_everything Demo.ignoring
                (Demo.start [false; true] []) 0 (Demo.plain 600) [] Hsig (Hfresh _ _))
      as (ret & strp' & w' & calls & Hrun & Htrace & Hneg & Hfail).
    assert (Hpath : false = false ∧ 512 <= 600 ∧ true = true) by (by vm_compute).
    destruct (Hfail (or_intror (or_intror (or_introl Hpath)))) as (-> & Hheap & Hledger).
    exists ret, w', calls. split_and!; try done. apply Hneg. right. right. by left.
  - destruct (failure_paths_release_everything Demo.ignoring
                (Demo.start [false; false] [false; true]) 0 (Demo.plain 600) []
                Hsig (Hfresh _ _))
      as (ret & strp' & w' & calls & Hrun & Htrace & Hneg & Hfail).
    assert (Hpath : false = false ∧ 512 <= 600 ∧ false = false ∧ -1 < 0) by (by vm_compute).
    destruct (Hfail (or_intror (or_intror (or_intror Hpath)))) as (-> & Hheap & Hledger).
    exists ret, w', calls. split_and!; try done. apply Hneg. right. right. by right.
Defined.

(** C5. Every call that the signal raised on entry lets run returns, and
    has made exactly one or exactly two allocation requests ([malloc], and
    [realloc] on the retry pass). Every block it obtained is resolved when
    it returns: a failed call owns nothing and leaves the heap as it
    found it, a successful call hands exactly one new block to the
    caller through [*strp]; no block is leaked, and none is released
    twice (the run is never undefined, and the ledger of its calls never
    sees a block released that is not owned). *)
Theorem allocations_resolved (pf : Libc.platform) (w : Libc.world)
    (strp : Z) (fmt : cstring) (args : list Libc.arg) :
  Libc.sigint pf ≠ Libc.SIG_DFL →
  Libc.fresh w →
  ∃ ret strp' w' calls,
    portable_vasprintf pf strp fmt (Libc.VaArgs args) w = Libc.Returns (ret, strp') w' ∧
    Libc.trace w' = Libc.trace w ++ calls ∧
    (length (List.filter Libc.is_alloc_request calls) = 1%nat ∨
     length (List.filter Libc.is_alloc_request calls) = 2%nat) ∧
    Libc.ledger [] calls = Some (if ret <? 0 then [] else [strp']) ∧
    (if ret <? 0 then strp' = strp ∧ Libc.heap w' = Libc.heap w
     else Libc.heap w !! strp' = None ∧
          ∃ b, Libc.heap w' = <[strp' := b]> (Libc.heap w)).
Proof.
  intros Hsig Hfresh.
  destruct (portable_vasprintf_exits pf w strp fmt args Hsig Hfresh)
    as (e & [ret strp'] & w' & calls & Hrun & Htrace & He).
  pose proof (ledger_after_exit pf w fmt args Hfresh e) as Hledger.
  pose proof (next_unused w Hfresh) as Hunused.
  exists ret, strp', w', calls. split; [exact Hrun|]. split; [exact Htrace|].
  destruct e; simpl in Hledger.
  - destruct He as (_ & [= -> ->] & Hheap & ->). simpl. auto.
  - destruct He as (_ & _ & [= -> ->] & Hheap & ->). simpl. auto.
  - destruct He as (_ & Hfit & [= -> ->] & (b & Hheap & _) & ->). simpl.
    destruct (Z.ltb_spec (Libc.reported pf (Libc.next_fault (Libc.format_faults w)) fmt args) 0);
      [lia|].
    split; [auto|]. split; [done|]. split; [|by exists b].
    rewrite <- (Z.add_0_r (Libc.next_block w)). by apply Hunused.
  - destruct He as (_ & _ & _ & [= -> ->] & Hheap & ->). simpl. auto.
  - destruct He as (_ & _ & _ & _ & [= -> ->] & Hheap & ->). simpl. auto.
  - destruct He as (_ & _ & _ & Hpos & [= -> ->] & (b & Hheap & _) & ->). simpl.
    destruct (Z.ltb_spec (Libc.reported pf (Libc.next_fault (tail (Libc.format_faults w))) fmt args) 0);
      [lia|].
    split; [auto|]. split; [done|]. split; [|by exists b].
    by apply Hunused.
Qed.

Lemma allocations_resolved_witness :
  ∃ ret strp' w' calls,
    portable_vasprintf Demo.ignoring 0 (Demo.plain 600) (Libc.VaArgs [])
      (Demo.start [false; false] [false; true])
    = Libc.Returns (ret, strp') w' ∧
    Libc.trace w' = [] ++ calls ∧
    (length (List.filter Libc.is_alloc_request calls) = 1%nat ∨
     length (List.filter Libc.is_alloc_request calls) = 2%nat) ∧
    Libc.ledger [] calls = Some (if ret <? 0 then [] else [strp']) ∧
    (if ret <? 0 then strp' = 0 ∧ Libc.heap w' = ∅
     else (∅ : gmap Z Libc.block) !! strp' = None ∧
          ∃ b, Libc.heap w' = <[strp' := b]> ∅).
Proof.
  apply (allocations_resolved Demo.ignoring
           (Demo.start [false; false] [false; true]) 0 (Demo.plain 600) []).
  - discriminate.
  - split; [reflexivity|]. intros p _. apply lookup_empty.
Defined.

(** ** The signal raised on entry *)

Lemma fresh_log (e : Libc.event) (w : Libc.world) :
  Libc.fresh w → Libc.fresh (Libc.log e w).
Proof. intros [Hpos Hnone]. by split. Qed.

(** C6, on the code. Each call of [portable_vasprintf] raises [SIGINT]
    before it does anything else, and [portable_asprintf] raises it once
    more before it calls [portable_vasprintf]. With the signal at its
    default action the process is terminated there: the call does not
    return, whatever the format, and so does every caller, [formatString]
    included. When the process survives, the signal is the first call the
    builder makes (the first two, through [portable_asprintf]). *)
Theorem formatting_raises_SIGINT :
  (∀ pf w strp fmt ap,
     Libc.sigint pf = Libc.SIG_DFL →
     portable_vasprintf pf strp fmt ap w
     = Libc.Killed Libc.SIGINT (Libc.log (Libc.EvRaise Libc.SIGINT) w)) ∧
  (∀ pf w strp fmt args,
     Libc.sigint pf = Libc.SIG_DFL →
     portable_asprintf pf strp fmt args w
     = Libc.Killed Libc.SIGINT (Libc.log (Libc.EvRaise Libc.SIGINT) w)) ∧
  (∀ pf w fmt args,
     Libc.sigint pf = Libc.SIG_DFL →
     formatString pf fmt args w
     = Libc.Killed Libc.SIGINT (Libc.log (Libc.EvRaise Libc.SIGINT) w)) ∧
  (∀ pf w strp fmt args,
     Libc.sigint pf ≠ Libc.SIG_DFL → Libc.fresh w →
     ∃ res w' calls,
       portable_vasprintf pf strp fmt (Libc.VaArgs args) w = Libc.Returns res w' ∧
       Libc.trace w' = Libc.trace w ++ Libc.EvRaise Libc.SIGINT :: calls) ∧
  (∀ pf w strp fmt args,
     Libc.sigint pf ≠ Libc.SIG_DFL → Libc.fresh w →
     ∃ res w' calls,
       portable_asprintf pf strp fmt args w = Libc.Returns res w' ∧
       Libc.trace w' = Libc.trace w ++ Libc.EvRaise Libc.SIGINT
                                       :: Libc.EvRaise Libc.SIGINT :: calls).
Proof.
  assert (Hbuilder : ∀ pf w strp fmt args,
            Libc.sigint pf ≠ Libc.SIG_DFL → Libc.fresh w →
            ∃ res w' calls,
              portable_vasprintf pf strp fmt (Libc.VaArgs args) w = Libc.Returns res w' ∧
              Libc.trace w' = Libc.trace w ++ Libc.EvRaise Libc.SIGINT :: calls).
  { intros pf w strp fmt args Hsig Hfresh.
    destruct (portable_vasprintf_exits pf w strp fmt args Hsig Hfresh)
      as (e & res & w' & calls & Hrun & Htrace & He).
    exists res, w'.
    destruct e.
    - destruct He as (_ & _ & _ & ->). eauto.
    - destruct He as (_ & _ & _ & _ & ->). eauto.
    - destruct He as (_ & _ & _ & _ & ->). eauto.
    - destruct He as (_ & _ & _ & _ & _ & ->). eauto.
    - destruct He as (_ & _ & _ & _ & _ & _ & ->). eauto.
    - destruct He as (_ & _ & _ & _ & _ & _ & ->). eauto. }
  split_and!.
  - intros pf w strp fmt ap Hsig. unfold portable_vasprintf.
    by erewrite bind_killed by by apply raise_kills.
  - intros pf w strp fmt args Hsig. unfold portable_asprintf.
    by erewrite bind_killed by by apply raise_kills.
  - intros pf w fmt args Hsig. unfold formatString, portable_vasprintf.
    erewrite bind_killed; [reflexivity|].
    by erewrite bind_killed by by apply raise_kills.
  - exact Hbuilder.
  - intros pf w strp fmt args Hsig Hfresh. unfold portable_asprintf.
    erewrite bind_returns by by apply raise_returns.
    destruct (Hbuilder pf (Libc.log (Libc.EvRaise Libc.SIGINT) w) strp fmt args Hsig
                (fresh_log _ _ Hfresh)) as (res & w' & calls & Hrun & Htrace).
    exists res, w', calls. unfold Libc.va_start.
    erewrite bind_returns by exact Hrun. split; [reflexivity|].
    rewrite Htrace. simpl. by rewrite <- app_assoc.
Qed.

Lemma formatting_raises_SIGINT_witness :
  let fmt := lit "%s has %d items" in
  let args := [Libc.ArgStr (lit "cart"); Libc.ArgInt 3] in
  let killed {A} : Libc.result A :=
    Libc.Killed Libc.SIGINT (Libc.log (Libc.EvRaise Libc.SIGINT) (Demo.start [] [])) in
  portable_vasprintf Demo.default 0 fmt (Libc.VaArgs args) (Demo.start [] []) = killed ∧
  portable_asprintf Demo.default 0 fmt args (Demo.start [] []) = killed ∧
  formatString Demo.default fmt args (Demo.start [] []) = killed ∧
  (∃ res w' calls,
     portable_asprintf Demo.ignoring 0 fmt args (Demo.start [] [])
     = Libc.Returns res w' ∧
     Libc.trace w' = [] ++ Libc.EvRaise Libc.SIGINT :: Libc.EvRaise Libc.SIGINT :: calls).
Proof.
  destruct formatting_raises_SIGINT as (Hv & Ha & Hf & _ & Hraised).
  assert (Hdfl : Libc.sigint Demo.default = Libc.SIG_DFL) by reflexivity.
  cbv zeta. split_and!.
  - by apply Hv.
  - by apply Ha.
  - by apply Hf.
  - apply (Hraised Demo.ignoring (Demo.start [] []) 0); [discriminate|].
    split; [reflexivity|]. intros p _. apply lookup_empty.
Defined.

(** ** [formatString] *)

(** C10. Whenever the builder reports failure to [formatString], the
    wrapper writes its diagnostic to [cerr] and returns the empty string;
    a successful rendering of the empty format returns the empty string
    too, without a diagnostic. The value returned is the same in both
    cases, so it cannot tell a failed rendering from the empty one. *)
Theorem formatString_failure_is_empty (pf : Libc.platform) (w : Libc.world)
    (fmt : cstring) (args : list Libc.arg) :
  Libc.sigint pf ≠ Libc.SIG_DFL →
  Libc.fresh w →
  (∀ ret strp' w1,
     portable_vasprintf pf Libc.NULL fmt (Libc.VaArgs args) w
     = Libc.Returns (ret, strp') w1 →
     ret < 0 →
     formatString pf fmt args w
     = Libc.Returns [] (Libc.log (Libc.EvCerr allocation_diagnostic) w1)) ∧
  (Libc.format pf [] [] = Some [] →
   Libc.next_fault (Libc.alloc_faults w) = false →
   Libc.next_fault (Libc.format_faults w) = false →
   ∃ w', formatString pf [] [] w = Libc.Returns [] w' ∧
     Libc.heap w' = Libc.heap w ∧
     Libc.trace w' = Libc.trace w ++ [Libc.EvRaise Libc.SIGINT;
                                      Libc.EvMalloc 512 (Libc.next_block w);
                                      Libc.EvVsnprintf (Libc.next_block w) 512 [] [] 0;
                                      Libc.EvFree (Libc.next_block w)]).
Proof.
  intros Hsig Hfresh. split.
  - intros ret strp' w1 Hrun Hneg.
    destruct (portable_vasprintf_exits pf w Libc.NULL fmt args Hsig Hfresh)
      as (e & res & w' & calls & Hrun' & _ & He).
    rewrite Hrun in Hrun'. injection Hrun' as <- <-.
    assert (Hres : (ret, strp') = (-1, Libc.NULL)).
    { destruct e.
      - by destruct He as (_ & ? & _).
      - by destruct He as (_ & _ & ? & _).
      - destruct He as (_ & ? & [= ? _] & _). lia.
      - by destruct He as (_ & _ & _ & ? & _).
      - by destruct He as (_ & _ & _ & _ & ? & _).
      - destruct He as (_ & _ & _ & ? & [= ? _] & _). lia. }
    injection Hres as -> ->.
    unfold formatString, Libc.va_start.
    erewrite bind_returns by exact Hrun. reflexivity.
  - intros Hfmt Hf1 Hff1.
    destruct (path_fits pf w Libc.NULL [] [] Hsig Hfresh [] Hf1 Hff1 Hfmt)
      as (w' & Hrun & Hheap & Htrace); [reflexivity|].
    unfold formatString, Libc.va_start.
    erewrite bind_returns by exact Hrun.
    change (StdString.size []) with 0 in *. cbv beta iota.
    rewrite bool_decide_eq_true_2 by done.
    pose proof (next_not_NULL w Hfresh) as Hp.
    erewrite bind_returns; cycle 1.
    { unfold Libc.string_of. rewrite Hheap, lookup_insert_eq.
      destruct (Z.eqb_spec (Libc.next_block w) Libc.NULL); [done|reflexivity]. }
    erewrite bind_returns; cycle 1.
    { eapply free_live; [exact Hp|]. rewrite Hheap. apply lookup_insert_eq. }
    eexists. split; [reflexivity|]. world_simpl. split.
    + rewrite Hheap. apply delete_insert_id, (next_unused_0 w Hfresh).
    + rewrite Htrace, <- app_assoc. reflexivity.
Qed.

Lemma formatString_failure_is_empty_witness :
  let diagnosed w := Libc.log (Libc.EvCerr allocation_diagnostic) w in
  (∃ w1, formatString Demo.ignoring (lit "hello %q") [] (Demo.start [] [])
         = Libc.Returns [] (diagnosed w1)) ∧
  (∃ w1, formatString Demo.ignoring [] [] (Demo.start [true] [])
         = Libc.Returns [] (diagnosed w1)) ∧
  (∃ w', formatString Demo.ignoring [] [] (Demo.start [] [])
         = Libc.Returns [] w' ∧
     Libc.heap w' = ∅ ∧
     Libc.trace w' = [] ++ [Libc.EvRaise Libc.SIGINT; Libc.EvMalloc 512 1;
                            Libc.EvVsnprintf 1 512 [] [] 0; Libc.EvFree 1]).
Proof.
  assert (Hfresh : ∀ a f, Libc.fresh (Demo.start a f)).
  { intros a f. split; [reflexivity|]. intros p _. apply lookup_empty. }
  assert (Hsig : Libc.sigint Demo.ignoring ≠ Libc.SIG_DFL) by discriminate.
  cbv zeta. split_and!.
  - eexists.
    apply (proj1 (formatString_failure_is_empty Demo.ignoring (Demo.start [] [])
                    (lit "hello %q") [] Hsig (Hfresh _ _)) (-1) Libc.NULL);
      [by vm_compute|reflexivity].
  - eexists.
    apply (proj1 (formatString_failure_is_empty Demo.ignoring (Demo.start [true] [])
                    [] [] Hsig (Hfresh _ _)) (-1) Libc.NULL);
      [by vm_compute|reflexivity].
  - apply (proj2 (formatString_failure_is_empty Demo.ignoring (Demo.start [] [])
                    [] [] Hsig (Hfresh _ _))); reflexivity.
Defined.

(* ================================================================= *)
(** * Further properties of the string tools *)

(** ** [trimLeft], [trimRight] and [trim] together *)
Section Trimming.
Import StdString.

Lemma not_blank_false_iff (c : ascii) : not_blank c = false ↔ c ∈ whitespace.
Proof.
  unfold not_blank, in_set. by rewrite negb_false_iff, bool_decide_eq_true.
Qed.

Lemma not_blank_true_iff (c : ascii) : not_blank c = true ↔ c ∉ whitespace.
Proof.
  unfold not_blank, in_set. by rewrite negb_true_iff, bool_decide_eq_false.
Qed.

Lemma blanks_iff (l : cstring) :
  Forall (λ c, not_blank c = false) l ↔ Forall (λ c, c ∈ whitespace) l.
Proof. apply Forall_proper; [|done]. intros c. apply not_blank_false_iff. Qed.

(** [trimLeft] drops a leading run of blanks in front of a part that is
    empty or starts with a character that is not blank. *)
Lemma trimLeft_run (l rest : cstring) :
  Forall (λ c, not_blank c = false) l →
  (rest = [] ∨ ∃ c t, rest = c :: t ∧ not_blank c = true) →
  size (l ++ rest) < npos →
  trimLeft (l ++ rest) = Ok rest.
Proof.
  intros Hl Hrest Hsize. unfold trimLeft.
  assert (Hlen : size (l ++ rest) = size l + size rest).
  { unfold size. rewrite length_app. lia. }
  assert (0 <= size l ∧ 0 <= size rest) as [??] by (unfold size; lia).
  unfold find_first_not_of. fold not_blank.
  destruct Hrest as [->|(c & t & -> & Hc)].
  - rewrite app_nil_r in *.
    destruct (Z.eqb_spec (size l) 0) as [Hz|_].
    { destruct l; [done|]. unfold size in Hz. simpl in Hz. lia. }
    by rewrite index_first_none.
  - destruct (Z.eqb_spec (size (l ++ c :: t)) 0) as [?|_];
      [unfold size in *; simpl in *; lia|].
    rewrite index_first_here by done. unfold position. fold (size l).
    destruct (Z.eqb_spec (0 + size l) npos) as [?|_]; [lia|].
    unfold wrap, npos, size_modulus in *.
    rewrite (Z.mod_small (size (l ++ c :: t) - 1)) by (unfold size in *; simpl in *; lia).
    replace (size (l ++ c :: t) - 1 - (0 + size l) + 1) with (size (c :: t)) by lia.
    rewrite Z.mod_small by lia.
    unfold substr.
    destruct (Z.ltb_spec (size (l ++ c :: t)) (0 + size l)) as [?|_]; [lia|].
    f_equal.
    replace (Z.to_nat (0 + size l)) with (length l) by (unfold size; lia).
    rewrite drop_app_length. apply take_ge. unfold size in *. lia.
Qed.

(** [trimRight] drops a trailing run of blanks behind a part that is empty
    or ends with a character that is not blank. When the whole string is
    blank, [find_last_not_of] gives [npos], the test of [b] against [npos]
    does not fire, and the length [e - b + 1] wraps around to 0. *)
Lemma trimRight_run (rest r : cstring) :
  Forall (λ c, not_blank c = false) r →
  (rest = [] ∨ ∃ t c, rest = t ++ [c] ∧ not_blank c = true) →
  size (rest ++ r) < npos →
  trimRight (rest ++ r) = Ok rest.
Proof.
  intros Hr Hrest Hsize. unfold trimRight.
  assert (Hlen : size (rest ++ r) = size rest + size r).
  { unfold size. rewrite length_app. lia. }
  assert (0 <= size r ∧ 0 <= size rest) as [??] by (unfold size; lia).
  unfold find_last_not_of. fold not_blank.
  change (0 =? npos) with false. cbv iota.
  destruct Hrest as [->|(t & c & -> & Hc)].
  - simpl in *.
    destruct (Z.eqb_spec (size r) 0) as [Hz|_].
    { destruct r; [done|]. unfold size in Hz. simpl in Hz. lia. }
    rewrite index_last_none by done. unfold position.
    change (wrap (npos - 0 + 1)) with 0. unfold substr.
    destruct (Z.ltb_spec (size r) 0) as [?|_]; [lia|].
    by rewrite Z.min_l by lia.
  - destruct (Z.eqb_spec (size ((t ++ [c]) ++ r)) 0) as [?|_];
      [unfold size in *; rewrite !length_app in *; simpl in *; lia|].
    rewrite <- app_assoc. simpl. rewrite index_last_here by done.
    unfold position. fold (size t).
    assert (Hrest : size (t ++ [c]) = size t + 1).
    { unfold size. rewrite length_app. simpl. lia. }
    replace (0 + size t - 0 + 1) with (size (t ++ [c])) by lia.
    unfold wrap, npos, size_modulus in *.
    rewrite Z.mod_small by lia.
    unfold substr.
    replace (t ++ c :: r) with ((t ++ [c]) ++ r) by by rewrite <- app_assoc.
    destruct (Z.ltb_spec (size ((t ++ [c]) ++ r)) 0) as [?|_]; [lia|].
    f_equal. change (Z.to_nat 0) with 0%nat. rewrite drop_0.
    replace (Z.to_nat (Z.min (size (t ++ [c])) (size ((t ++ [c]) ++ r) - 0)))
      with (length (t ++ [c])) by (unfold size in *; lia).
    by rewrite take_app_length.
Qed.

(** The three ways a string divides into blanks and a core. *)
Lemma blanks_core_blanks (s : cstring) :
  ∃ l m r,
    s = l ++ m ++ r ∧
    Forall (λ c, not_blank c = false) l ∧ Forall (λ c, not_blank c = false) r ∧
    ((m = [] ∧ r = []) ∨
     ∃ c1 c2 t1 t2, m = c1 :: t1 ∧ not_blank c1 = true ∧
                    m = t2 ++ [c2] ∧ not_blank c2 = true).
Proof.
  destruct (blank_or_core s)
    as [Hs|(l & m & r & c1 & c2 & t1 & t2 & -> & Hl & Hr & Hm1 & Hc1 & Hm2 & Hc2)].
  - exists s, [], []. rewrite app_nil_r. split_and!; auto.
  - exists l, m, r. split_and!; try done. right. by exists c1, c2, t1, t2.
Qed.

Lemma size_app_lt (u v : cstring) (k : Z) :
  size (u ++ v) < k → size u < k ∧ size v < k.
Proof. unfold size. rewrite length_app. lia. Qed.
End Trimming.

(** X1. [trimLeft] removes the leading blanks and nothing else: the input
    is a run of blanks followed by the result, the result does not start
    with a blank, and trimming it again changes nothing. An all-blank or
    empty input gives the empty string. *)
Theorem trimLeft_removes_leading_blanks (s : cstring) :
  StdString.size s < StdString.npos →
  ∃ l t,
    s = l ++ t ∧ Forall (λ c, c ∈ whitespace) l ∧
    trimLeft s = Ok t ∧
    (∀ c t', t = c :: t' → c ∉ whitespace) ∧
    trimLeft t = Ok t.
Proof.
  intros Hsize.
  destruct (leading_run not_blank s) as (l & t & -> & Hl & Ht).
  exists l, t. split; [done|]. split; [by apply blanks_iff|].
  split; [by apply trimLeft_run|]. split.
  - intros c t' ->. destruct Ht as [?|(c' & t'' & [= -> ->] & Hc)]; [done|].
    by apply not_blank_true_iff.
  - apply (trimLeft_run [] t); [done|done|].
    by apply (size_app_lt l t).
Qed.

Lemma trimLeft_removes_leading_blanks_witness :
  ∃ l t,
    lit "  hi there " = l ++ t ∧ Forall (λ c, c ∈ whitespace) l ∧
    trimLeft (lit "  hi there ") = Ok t ∧
    (∀ c t', t = c :: t' → c ∉ whitespace) ∧
    trimLeft t = Ok t.
Proof.
  apply (trimLeft_removes_leading_blanks (lit "  hi there ")). reflexivity.
Defined.

(** X2. [trimRight] removes the trailing blanks and nothing else: the input
    is the result followed by a run of blanks, the result does not end
    with a blank, and trimming it again changes nothing. An all-blank
    input gives the empty string (through the wrap-around of the length
    [e - b + 1], since the test [b == npos] of this function never
    fires). *)
Theorem trimRight_removes_trailing_blanks (s : cstring) :
  StdString.size s < StdString.npos →
  ∃ t r,
    s = t ++ r ∧ Forall (λ c, c ∈ whitespace) r ∧
    trimRight s = Ok t ∧
    (∀ t' c, t = t' ++ [c] → c ∉ whitespace) ∧
    trimRight t = Ok t.
Proof.
  intros Hsize.
  destruct (trailing_run not_blank s) as (t & r & -> & Hr & Ht).
  exists t, r. split; [done|]. split; [by apply blanks_iff|].
  split; [by apply trimRight_run|]. split.
  - intros t' c ->. destruct Ht as [Hnil|(t'' & c' & Heq & Hc)].
    + by destruct t'.
    + apply app_inj_tail in Heq as [_ ->]. by apply not_blank_true_iff.
  - rewrite <- (app_nil_r t) at 1. apply (trimRight_run t []); [done|done|].
    rewrite app_nil_r. by apply (size_app_lt t r).
Qed.

Lemma trimRight_removes_trailing_blanks_witness :
  (∃ t r,
     lit "  hi there  " = t ++ r ∧ Forall (λ c, c ∈ whitespace) r ∧
     trimRight (lit "  hi there  ") = Ok t ∧
     (∀ t' c, t = t' ++ [c] → c ∉ whitespace) ∧
     trimRight t = Ok t) ∧
  (∃ t r,
     lit "   " = t ++ r ∧ Forall (λ c, c ∈ whitespace) r ∧
     trimRight (lit "   ") = Ok t ∧
     (∀ t' c, t = t' ++ [c] → c ∉ whitespace) ∧
     trimRight t = Ok t).
Proof.
  split.
  - apply (trimRight_removes_trailing_blanks (lit "  hi there  ")). reflexivity.
  - apply (trimRight_removes_trailing_blanks (lit "   ")). reflexivity.
Defined.

(** X3. [trim] is [trimLeft] after [trimRight], and [trimRight] after
    [trimLeft]: all three return, and the two compositions give what
    [trim] gives. *)
Theorem trim_is_trimLeft_and_trimRight (s : cstring) :
  StdString.size s < StdString.npos →
  ∃ t u v,
    trim s = Ok t ∧
    trimRight s = Ok u ∧ trimLeft u = Ok t ∧
    trimLeft s = Ok v ∧ trimRight v = Ok t.
Proof.
  intros Hsize.
  destruct (blanks_core_blanks s)
    as (l & m & r & -> & Hl & Hr & [[-> ->]|(c1 & c2 & t1 & t2 & Hm1 & Hc1 & Hm2 & Hc2)]).
  - simpl in *. rewrite app_nil_r in *. exists [], [], [].
    split; [by apply trim_blank|].
    split; [by apply (trimRight_run [] l); auto|]. split; [done|].
    split; [|done].
    rewrite <- (app_nil_r l). apply (trimLeft_run l []); auto.
    by rewrite app_nil_r.
  - exists m, (l ++ m), (m ++ r).
    destruct (size_app_lt l (m ++ r) _ Hsize) as [_ Hmr].
    assert (Hlm : StdString.size (l ++ m) < StdString.npos).
    { rewrite app_assoc in Hsize. by apply (size_app_lt (l ++ m) r). }
    split; [by eapply trim_core|].
    split.
    { rewrite app_assoc. apply trimRight_run; [done| |by rewrite <- app_assoc].
      right. exists (l ++ t2), c2. by rewrite Hm2, app_assoc. }
    split.
    { apply trimLeft_run; [done| |done]. right. by exists c1, t1. }
    split.
    { apply trimLeft_run; [done| |done]. right. exists c1, (t1 ++ r). by rewrite Hm1. }
    apply trimRight_run; [done| |done]. right. by exists t2, c2.
Qed.

Lemma trim_is_trimLeft_and_trimRight_witness :
  ∃ t u v,
    trim (lit " 	hi there
 ") = Ok t ∧
    trimRight (lit " 	hi there
 ") = Ok u ∧ trimLeft u = Ok t ∧
    trimLeft (lit " 	hi there
 ") = Ok v ∧ trimRight v = Ok t.
Proof.
  apply (trim_is_trimLeft_and_trimRight (lit " 	hi there
 ")). reflexivity.
Defined.

(** X4. [trim] returns the part of its input between the leading and the
    trailing blanks: the input is blanks, the result, blanks, and the
    result neither starts nor ends with a blank (inner blanks stay). *)
Theorem trim_removes_outer_blanks (s : cstring) :
  StdString.size s < StdString.npos →
  ∃ l t r,
    s = l ++ t ++ r ∧
    Forall (λ c, c ∈ whitespace) l ∧ Forall (λ c, c ∈ whitespace) r ∧
    trim s = Ok t ∧
    (∀ c t', t = c :: t' → c ∉ whitespace) ∧
    (∀ t' c, t = t' ++ [c] → c ∉ whitespace).
Proof.
  intros Hsize.
  destruct (blanks_core_blanks s)
    as (l & m & r & -> & Hl & Hr & [[-> ->]|(c1 & c2 & t1 & t2 & Hm1 & Hc1 & Hm2 & Hc2)]).
  - exists l, [], []. split; [done|]. split; [by apply blanks_iff|].
    split; [done|]. simpl in *. rewrite app_nil_r in *.
    split; [by apply trim_blank|]. split; [done|]. intros t' c Heq. by destruct t'.
  - exists l, m, r. split; [done|]. split; [by apply blanks_iff|].
    split; [by apply blanks_iff|]. split; [by eapply trim_core|]. split.
    + intros c t' Heq. rewrite Hm1 in Heq. injection Heq as <- _.
      by apply not_blank_true_iff.
    + intros t' c Heq. rewrite Hm2 in Heq. apply app_inj_tail in Heq as [_ <-].
      by apply not_blank_true_iff.
Qed.

Lemma trim_removes_outer_blanks_witness :
  ∃ l t r,
    lit "  a b  " = l ++ t ++ r ∧
    Forall (λ c, c ∈ whitespace) l ∧ Forall (λ c, c ∈ whitespace) r ∧
    trim (lit "  a b  ") = Ok t ∧
    (∀ c t', t = c :: t' → c ∉ whitespace) ∧
    (∀ t' c, t = t' ++ [c] → c ∉ whitespace).
Proof. apply (trim_removes_outer_blanks (lit "  a b  ")). reflexivity. Defined.

(** X5. [trim] returns its input unchanged exactly when the input neither
    starts nor ends with a blank (the empty string included). *)
Theorem trim_fixed_points (s : cstring) :
  StdString.size s < StdString.npos →
  trim s = Ok s ↔
  (∀ c t, s = c :: t → c ∉ whitespace) ∧ (∀ t c, s = t ++ [c] → c ∉ whitespace).
Proof.
  intros Hsize. split.
  - intros Htrim.
    destruct (blanks_core_blanks s)
      as (l & m & r & -> & Hl & Hr & [[-> ->]|(c1 & c2 & t1 & t2 & Hm1 & Hc1 & Hm2 & Hc2)]).
    + simpl in *. rewrite app_nil_r in *.
      rewrite trim_blank in Htrim by done. injection Htrim as <-.
      split; [done|]. intros t c Heq. by destruct t.
    + erewrite trim_core in Htrim by done. injection Htrim as Heq.
      assert (length l = 0%nat ∧ length r = 0%nat) as [Hl0 Hr0].
      { apply (f_equal length) in Heq. rewrite !length_app in Heq. lia. }
      destruct l; [|done]. destruct r; [|done]. simpl. rewrite app_nil_r.
      split.
      * intros c t Hs. rewrite Hm1 in Hs. injection Hs as <- _.
        by apply not_blank_true_iff.
      * intros t c Hs. rewrite Hm2 in Hs. apply app_inj_tail in Hs as [_ <-].
        by apply not_blank_true_iff.
  - intros [Hfirst Hlast].
    destruct s as [|c t]; [done|].
    destruct (exists_last (l := c :: t)) as (t' & c' & Heq); [done|].
    rewrite <- (app_nil_r (c :: t)) at 1.
    change ((c :: t) ++ []) with ([] ++ (c :: t) ++ []).
    apply (trim_core [] (c :: t) [] c c' t t'); try done.
    + apply not_blank_true_iff. by eapply Hfirst.
    + apply not_blank_true_iff. by eapply Hlast.
    + simpl. by rewrite app_nil_r.
Qed.

Lemma trim_fixed_points_witness :
  (trim (lit "a b") = Ok (lit "a b") ↔
   (∀ c t, lit "a b" = c :: t → c ∉ whitespace) ∧
   (∀ t c, lit "a b" = t ++ [c] → c ∉ whitespace)) ∧
  (trim (lit "a b ") = Ok (lit "a b ") ↔
   (∀ c t, lit "a b " = c :: t → c ∉ whitespace) ∧
   (∀ t c, lit "a b " = t ++ [c] → c ∉ whitespace)).
Proof.
  split.
  - apply (trim_fixed_points (lit "a b")). reflexivity.
  - apply (trim_fixed_points (lit "a b ")). reflexivity.
Defined.

(** ** [strToLower] and [strToUpper] *)

Ltac each_char c :=
  destruct c as [[] [] [] [] [] [] [] []]; vm_compute; try reflexivity; try discriminate.

Lemma lower_char_spec (c : ascii) :
  lower_char c = if is_upper c then ascii_of_N (N_of_ascii c + 32) else c.
Proof. each_char c. Qed.

Lemma upper_char_spec (c : ascii) :
  upper_char c = if is_lower c then ascii_of_N (N_of_ascii c - 32) else c.
Proof. each_char c. Qed.

Lemma lower_char_not_upper (c : ascii) : is_upper (lower_char c) = false.
Proof. each_char c. Qed.

Lemma upper_char_not_lower (c : ascii) : is_lower (upper_char c) = false.
Proof. each_char c. Qed.

Lemma lower_lower_char (c : ascii) : lower_char (lower_char c) = lower_char c.
Proof. each_char c. Qed.

Lemma upper_upper_char (c : ascii) : upper_char (upper_char c) = upper_char c.
Proof. each_char c. Qed.

Lemma lower_upper_char (c : ascii) : lower_char (upper_char c) = lower_char c.
Proof. each_char c. Qed.

Lemma upper_lower_char (c : ascii) : upper_char (lower_char c) = upper_char c.
Proof. each_char c. Qed.

Lemma lower_char_blank (c : ascii) : not_blank (lower_char c) = not_blank c.
Proof. each_char c. Qed.

Lemma upper_char_blank (c : ascii) : not_blank (upper_char c) = not_blank c.
Proof. each_char c. Qed.

(** [transform] appends the image of each character, in order. *)
Lemma transform_fmap (f : Z → Z) (s ret : cstring) :
  transform s ret f = ret ++ ((λ c, char_of_int (f (int_of_char c))) <$> s).
Proof.
  revert ret. induction s as [|c s IH]; intros ret; simpl.
  - by rewrite app_nil_r.
  - by rewrite IH, <- app_assoc.
Qed.

Lemma strToLower_fmap (s : cstring) : strToLower s = lower_char <$> s.
Proof. unfold strToLower. by rewrite transform_fmap. Qed.

Lemma strToUpper_fmap (s : cstring) : strToUpper s = upper_char <$> s.
Proof. unfold strToUpper. by rewrite transform_fmap. Qed.

(** X6. [strToLower] keeps the length of its input and changes the 26
    upper-case letters only, each into its lower-case letter: no
    upper-case letter is left in the result, and an input without
    upper-case letters is returned as it is. [strToUpper] does the same
    with the lower-case letters. *)
Theorem case_conversion_changes_letters_only (s : cstring) :
  (length (strToLower s) = length s ∧
   (∀ i c, s !! i = Some c →
      strToLower s !! i
      = Some (if is_upper c then ascii_of_N (N_of_ascii c + 32) else c)) ∧
   Forall (λ c, is_upper c = false) (strToLower s) ∧
   (Forall (λ c, is_upper c = false) s → strToLower s = s)) ∧
  (length (strToUpper s) = length s ∧
   (∀ i c, s !! i = Some c →
      strToUpper s !! i
      = Some (if is_lower c then ascii_of_N (N_of_ascii c - 32) else c)) ∧
   Forall (λ c, is_lower c = false) (strToUpper s) ∧
   (Forall (λ c, is_lower c = false) s → strToUpper s = s)).
Proof.
  rewrite strToLower_fmap, strToUpper_fmap. split; split_and!.
  - by rewrite length_fmap.
  - intros i c Hi. rewrite list_lookup_fmap, Hi. simpl.
    by rewrite lower_char_spec.
  - apply Forall_fmap, Forall_true. intros c. apply lower_char_not_upper.
  - induction 1 as [|c s' Hc _ IH]; [done|].
    rewrite fmap_cons, IH, lower_char_spec, Hc. done.
  - by rewrite length_fmap.
  - intros i c Hi. rewrite list_lookup_fmap, Hi. simpl.
    by rewrite upper_char_spec.
  - apply Forall_fmap, Forall_true. intros c. apply upper_char_not_lower.
  - induction 1 as [|c s' Hc _ IH]; [done|].
    rewrite fmap_cons, IH, upper_char_spec, Hc. done.
Qed.

(** X7. The case conversions are idempotent, and the second one applied
    decides: lower-casing an upper-cased string gives the lower-cased
    string, and conversely. *)
Theorem case_conversion_absorbs (s : cstring) :
  strToLower (strToLower s) = strToLower s ∧
  strToUpper (strToUpper s) = strToUpper s ∧
  strToLower (strToUpper s) = strToLower s ∧
  strToUpper (strToLower s) = strToUpper s.
Proof.
  rewrite !strToLower_fmap, !strToUpper_fmap, <- !list_fmap_compose.
  split_and!; apply list_fmap_ext; intros i c _; simpl.
  - apply lower_lower_char.
  - apply upper_upper_char.
  - apply lower_upper_char.
  - apply upper_lower_char.
Qed.

(** X8. Comparing without regard to case can go through either
    conversion: two strings have the same lower-case form exactly when
    they have the same upper-case form. *)
Theorem case_insensitive_equality (s t : cstring) :
  strToLower s = strToLower t ↔ strToUpper s = strToUpper t.
Proof.
  assert (Hup : ∀ u, strToUpper (strToLower u) = strToUpper u).
  { intros u. rewrite !strToLower_fmap, !strToUpper_fmap, <- list_fmap_compose.
    apply list_fmap_ext. intros i c _. apply upper_lower_char. }
  assert (Hlow : ∀ u, strToLower (strToUpper u) = strToLower u).
  { intros u. rewrite !strToLower_fmap, !strToUpper_fmap, <- list_fmap_compose.
    apply list_fmap_ext. intros i c _. apply lower_upper_char. }
  split; intros Heq.
  - by rewrite <- (Hup s), <- (Hup t), Heq.
  - by rewrite <- (Hlow s), <- (Hlow t), Heq.
Qed.

(** ** Case conversion under [trim] and [strSplit] *)

Lemma upper_to_lower_letter (c : ascii) :
  is_upper c = true → is_lower (lower_char c) = true.
Proof. each_char c. Qed.

Lemma lower_to_upper_letter (c : ascii) :
  is_lower c = true → is_upper (upper_char c) = true.
Proof. each_char c. Qed.

(** [trim] goes through a change of characters that keeps blanks blank
    and the other characters not blank. *)
Lemma trim_fmap (g : ascii → ascii) (s : cstring) :
  (∀ c, not_blank (g c) = not_blank c) →
  StdString.size s < StdString.npos →
  ∃ t, trim s = Ok t ∧ trim (g <$> s) = Ok (g <$> t).
Proof.
  intros Hg Hsize.
  assert (Hblank : ∀ l, Forall (λ c, not_blank c = false) l →
                        Forall (λ c, not_blank c = false) (g <$> l)).
  { intros l Hl. apply Forall_fmap. eapply Forall_impl; [exact Hl|].
    intros c Hc. simpl. by rewrite Hg. }
  destruct (blanks_core_blanks s)
    as (l & m & r & -> & Hl & Hr & [[-> ->]|(c1 & c2 & t1 & t2 & Hm1 & Hc1 & Hm2 & Hc2)]).
  - simpl in *. rewrite app_nil_r in *. exists [].
    split; [by apply trim_blank|]. apply trim_blank. by apply Hblank.
  - exists m. split; [by eapply trim_core|].
    rewrite !fmap_app.
    apply (trim_core _ _ _ (g c1) (g c2) (g <$> t1) (g <$> t2)); auto.
    + by rewrite Hm1.
    + by rewrite Hg.
    + by rewrite Hm2, fmap_app.
    + by rewrite Hg.
    + rewrite <- !fmap_app. unfold StdString.size in *. by rewrite length_fmap.
Qed.

(** [strSplit] goes through a change of characters that keeps the
    delimiters and makes no new one. *)
Lemma split_fmap (g : ascii → ascii) (delimiters s : cstring) :
  (∀ c, StdString.in_set delimiters (g c) = StdString.in_set delimiters c) →
  split_at_every_delimiter delimiters (g <$> s)
  = (λ t : list ascii, g <$> t) <$> split_at_every_delimiter delimiters s.
Proof.
  intros Hg. induction s as [|c s IH]; [done|].
  rewrite fmap_cons. simpl. rewrite Hg, IH.
  destruct (StdString.in_set delimiters c); [done|].
  pose proof (split_not_nil delimiters s).
  by destruct (split_at_every_delimiter delimiters s).
Qed.

Lemma delimiter_after_lower (delimiters : cstring) (c : ascii) :
  Forall (λ d, is_upper d = false ∧ is_lower d = false) delimiters →
  StdString.in_set delimiters (lower_char c) = StdString.in_set delimiters c.
Proof.
  intros Hd. rewrite Forall_forall in Hd.
  rewrite lower_char_spec. destruct (is_upper c) eqn:Hc; [|done].
  pose proof (upper_to_lower_letter c Hc) as Hl. rewrite lower_char_spec, Hc in Hl.
  unfold StdString.in_set.
  rewrite !bool_decide_eq_false_2; [done| |].
  - intros Hin. apply Hd in Hin. destruct Hin. congruence.
  - intros Hin. apply Hd in Hin. destruct Hin. congruence.
Qed.

Lemma delimiter_after_upper (delimiters : cstring) (c : ascii) :
  Forall (λ d, is_upper d = false ∧ is_lower d = false) delimiters →
  StdString.in_set delimiters (upper_char c) = StdString.in_set delimiters c.
Proof.
  intros Hd. rewrite Forall_forall in Hd.
  rewrite upper_char_spec. destruct (is_lower c) eqn:Hc; [|done].
  pose proof (lower_to_upper_letter c Hc) as Hl. rewrite upper_char_spec, Hc in Hl.
  unfold StdString.in_set.
  rewrite !bool_decide_eq_false_2; [done| |].
  - intros Hin. apply Hd in Hin. destruct Hin. congruence.
  - intros Hin. apply Hd in Hin. destruct Hin. congruence.
Qed.

(** X9. Trimming and case conversion commute: trimming the lower-cased
    (upper-cased) string gives the lower-cased (upper-cased) trimmed
    string. *)
Theorem trim_commutes_with_case (s : cstring) :
  StdString.size s < StdString.npos →
  ∃ t, trim s = Ok t ∧
    trim (strToLower s) = Ok (strToLower t) ∧
    trim (strToUpper s) = Ok (strToUpper t).
Proof.
  intros Hsize.
  destruct (trim_fmap lower_char s lower_char_blank Hsize) as (t & Ht & Hlow).
  destruct (trim_fmap upper_char s upper_char_blank Hsize) as (t' & Ht' & Hup).
  assert (t' = t) as -> by congruence.
  exists t. by rewrite !strToLower_fmap, !strToUpper_fmap.
Qed.

Lemma trim_commutes_with_case_witness :
  ∃ t, trim (lit "  Hello World ") = Ok t ∧
    trim (strToLower (lit "  Hello World ")) = Ok (strToLower t) ∧
    trim (strToUpper (lit "  Hello World ")) = Ok (strToUpper t).
Proof. apply (trim_commutes_with_case (lit "  Hello World ")). reflexivity. Defined.

(** X10. Splitting and case conversion commute when no delimiter is a
    letter: the tokens of the lower-cased (upper-cased) string are the
    lower-cased (upper-cased) tokens of the string. *)
Theorem strSplit_commutes_with_case (s delimiters : cstring) :
  StdString.size s < StdString.npos →
  Forall (λ d, is_upper d = false ∧ is_lower d = false) delimiters →
  ∃ tokens, strSplit s delimiters = Ok tokens ∧
    strSplit (strToLower s) delimiters = Ok (strToLower <$> tokens) ∧
    strSplit (strToUpper s) delimiters = Ok (strToUpper <$> tokens).
Proof.
  intros Hsize Hd.
  exists (split_at_every_delimiter delimiters s).
  split; [by apply strSplit_split|].
  rewrite strToLower_fmap, strToUpper_fmap.
  rewrite !strSplit_split by (unfold StdString.size in *; by rewrite length_fmap).
  rewrite !split_fmap by (intros c; by apply delimiter_after_lower || by apply delimiter_after_upper).
  split; f_equal; apply list_fmap_ext; intros i t _.
  - by rewrite strToLower_fmap.
  - by rewrite strToUpper_fmap.
Qed.

Lemma strSplit_commutes_with_case_witness :
  ∃ tokens, strSplit (lit "Key=Value;A=b") (lit "=;") = Ok tokens ∧
    strSplit (strToLower (lit "Key=Value;A=b")) (lit "=;") = Ok (strToLower <$> tokens) ∧
    strSplit (strToUpper (lit "Key=Value;A=b")) (lit "=;") = Ok (strToUpper <$> tokens).
Proof.
  apply (strSplit_commutes_with_case (lit "Key=Value;A=b") (lit "=;")).
  - reflexivity.
  - repeat constructor.
Defined.

(** ** [strStartsWith] and [strEndsWith] *)

Lemma equal_in_range (range1 range2 : cstring) :
  (length range1 <= length range2)%nat → ∃ b, equal range1 range2 = Some b.
Proof.
  revert range2. induction range1 as [|c1 r1 IH]; intros [|c2 r2] Hlen; simpl in *;
    eauto; [lia|].
  destruct (bool_decide (c1 = c2)); [|by eauto]. apply IH. lia.
Qed.

Lemma equal_true_iff (range1 range2 : cstring) :
  equal range1 range2 = Some true ↔ ∃ rest, range2 = range1 ++ rest.
Proof.
  revert range2. induction range1 as [|c1 r1 IH]; intros range2; simpl.
  - split; [by eauto|done].
  - destruct range2 as [|c2 r2].
    + split; [done|]. by intros [rest ?].
    + case_bool_decide as Hc.
      * subst c2. rewrite IH. split; intros [rest Hrest]; exists rest.
        -- by rewrite Hrest.
        -- by injection Hrest.
      * split; [done|]. intros [rest Hrest]. by injection Hrest as -> _.
Qed.

Lemma strStartsWith_iff (s start : cstring) :
  strStartsWith s start = Some true ↔ ∃ rest, s = start ++ rest.
Proof.
  unfold strStartsWith, StdString.size.
  destruct (Z.ltb_spec (Z.of_nat (length s)) (Z.of_nat (length start))) as [Hlt|_].
  - split; [done|]. intros [rest ->]. rewrite length_app in Hlt. lia.
  - apply equal_true_iff.
Qed.

Lemma strEndsWith_iff (s end_ : cstring) :
  strEndsWith s end_ = Some true ↔ ∃ front, s = front ++ end_.
Proof.
  unfold strEndsWith, StdString.size.
  destruct (Z.ltb_spec (Z.of_nat (length s)) (Z.of_nat (length end_))) as [Hlt|_].
  - split; [done|]. intros [front ->]. rewrite length_app in Hlt. lia.
  - rewrite equal_true_iff. split.
    + intros [rest Hrest]. exists (reverse rest).
      apply (f_equal reverse) in Hrest.
      by rewrite reverse_involutive, reverse_app, reverse_involutive in Hrest.
    + intros [front ->]. exists (reverse front). by rewrite reverse_app.
Qed.

Lemma strStartsWith_decides (s start : cstring) :
  ∃ b, strStartsWith s start = Some b.
Proof.
  unfold strStartsWith, StdString.size.
  destruct (Z.ltb_spec (Z.of_nat (length s)) (Z.of_nat (length start))); [by eauto|].
  apply equal_in_range. lia.
Qed.

Lemma strEndsWith_decides (s end_ : cstring) :
  ∃ b, strEndsWith s end_ = Some b.
Proof.
  unfold strEndsWith, StdString.size.
  destruct (Z.ltb_spec (Z.of_nat (length s)) (Z.of_nat (length end_))); [by eauto|].
  apply equal_in_range. rewrite !length_reverse. lia.
Qed.

(** X11. [strStartsWith] never compares past the end of [s] (the size
    test comes first), and it answers true exactly when [s] is [start]
    followed by something: the empty string starts every string, and a
    string longer than [s] never does. *)
Theorem strStartsWith_is_prefix (s start : cstring) :
  (∃ b, strStartsWith s start = Some b) ∧
  (strStartsWith s start = Some true ↔ ∃ rest, s = start ++ rest) ∧
  strStartsWith s [] = Some true ∧
  ((length s < length start)%nat → strStartsWith s start = Some false).
Proof.
  split; [apply strStartsWith_decides|]. split; [apply strStartsWith_iff|].
  split; [by apply strStartsWith_iff; exists s|].
  intros Hlen. unfold strStartsWith, StdString.size.
  by destruct (Z.ltb_spec (Z.of_nat (length s)) (Z.of_nat (length start))); [|lia].
Qed.

(** X12. [strEndsWith] never compares past the start of [s], and it
    answers true exactly when [s] is something followed by [end]: the
    empty string ends every string, and a string longer than [s] never
    does. *)
Theorem strEndsWith_is_suffix (s end_ : cstring) :
  (∃ b, strEndsWith s end_ = Some b) ∧
  (strEndsWith s end_ = Some true ↔ ∃ front, s = front ++ end_) ∧
  strEndsWith s [] = Some true ∧
  ((length s < length end_)%nat → strEndsWith s end_ = Some false).
Proof.
  split; [apply strEndsWith_decides|]. split; [apply strEndsWith_iff|].
  split; [apply strEndsWith_iff; exists s; by rewrite app_nil_r|].
  intros Hlen. unfold strEndsWith, StdString.size.
  by destruct (Z.ltb_spec (Z.of_nat (length s)) (Z.of_nat (length end_))); [|lia].
Qed.

(** X13. "Starts with" is an order on strings: every string starts with
    itself, two strings that start with each other are equal, and a
    prefix of a prefix is a prefix. A string that both starts with [a]
    and ends with [b], and is long enough for both, is [a], a middle
    part and [b]. *)
Theorem strStartsWith_is_an_order (s t u : cstring) :
  strStartsWith s s = Some true ∧
  (strStartsWith s t = Some true → strStartsWith t s = Some true → s = t) ∧
  (strStartsWith s t = Some true → strStartsWith t u = Some true →
   strStartsWith s u = Some true) ∧
  (strStartsWith s t = Some true → strEndsWith s u = Some true →
   (length t + length u <= length s)%nat → ∃ middle, s = t ++ middle ++ u).
Proof.
  rewrite !strStartsWith_iff, !strEndsWith_iff. split_and!.
  - exists []. by rewrite app_nil_r.
  - intros [r1 ->] [r2 Heq].
    assert (length r1 = 0%nat) as Hr1.
    { apply (f_equal length) in Heq. rewrite !length_app in Heq. lia. }
    destruct r1; [|done]. by rewrite app_nil_r.
  - intros [r1 ->] [r2 ->]. exists (r2 ++ r1). by rewrite app_assoc.
  - intros [rest ->] [front Heq] Hlen.
    rewrite length_app in Hlen.
    assert (Hfront : (length t <= length front)%nat).
    { apply (f_equal length) in Heq. rewrite !length_app in Heq. lia. }
    assert (Hrest : rest = drop (length t) front ++ u).
    { apply (f_equal (drop (length t))) in Heq.
      rewrite drop_app_length in Heq. rewrite Heq. by apply drop_app_le. }
    exists (drop (length t) front). by rewrite Hrest.
Qed.

Lemma strStartsWith_is_an_order_witness :
  strStartsWith (lit "abc") (lit "a") = Some true.
Proof.
  apply (proj1 (proj2 (proj2 (strStartsWith_is_an_order (lit "abc") (lit "ab") (lit "a")))));
    reflexivity.
Defined.

(** ** More on [strSplit] *)
Section Tokens.
Import StdString.
Context (delimiters : cstring).

Local Abbreviation split := (split_at_every_delimiter delimiters).

Lemma in_set_true (c : ascii) : in_set delimiters c = true ↔ c ∈ delimiters.
Proof. unfold in_set. apply bool_decide_eq_true. Qed.

Lemma in_set_false (c : ascii) : in_set delimiters c = false ↔ c ∉ delimiters.
Proof. unfold in_set. apply bool_decide_eq_false. Qed.

Lemma split_tokens_clean (s : cstring) :
  Forall (λ token, Forall (λ c, c ∉ delimiters) token) (split s).
Proof.
  induction s as [|c s IH]; simpl; [by repeat constructor|].
  destruct (in_set delimiters c) eqn:Hc; [by constructor|].
  pose proof (split_not_nil delimiters s).
  destruct (split s) as [|token tokens]; [done|].
  apply Forall_cons in IH as [Htoken Htokens].
  constructor; [|done]. constructor; [by apply in_set_false|done].
Qed.

Lemma split_concat (s : cstring) :
  concat (split s) = filter (λ c, c ∉ delimiters) s.
Proof.
  induction s as [|c s IH]; simpl; [done|].
  rewrite filter_cons.
  destruct (in_set delimiters c) eqn:Hc.
  - apply in_set_true in Hc. rewrite decide_False by auto. by simpl.
  - apply in_set_false in Hc. rewrite decide_True by done. rewrite <- IH.
    pose proof (split_not_nil delimiters s). by destruct (split s).
Qed.

Lemma rejoin_cons (c : ascii) (token : cstring) (tokens : list cstring)
    (separators : cstring) :
  rejoin ((c :: token) :: tokens) separators = c :: rejoin (token :: tokens) separators.
Proof. by destruct separators. Qed.

Lemma split_rejoin (s : cstring) :
  rejoin (split s) (filter (λ c, c ∈ delimiters) s) = s.
Proof.
  induction s as [|c s IH]; simpl; [done|].
  rewrite filter_cons.
  destruct (in_set delimiters c) eqn:Hc.
  - apply in_set_true in Hc. rewrite decide_True by done. simpl. by rewrite IH.
  - apply in_set_false in Hc. rewrite decide_False by done.
    pose proof (split_not_nil delimiters s).
    destruct (split s) as [|token tokens]; [done|].
    by rewrite rejoin_cons, IH.
Qed.

(** The first token starts the string and the last one ends it. *)
Lemma split_first (s : cstring) :
  ∃ first tokens rest, split s = first :: tokens ∧ s = first ++ rest.
Proof.
  induction s as [|c s (first & tokens & rest & Hs & Hrest)]; simpl.
  - by exists [], [], [].
  - destruct (in_set delimiters c).
    + by exists [], (split s), (c :: s).
    + rewrite Hs. exists (c :: first), tokens, rest. by rewrite Hrest at 1.
Qed.

Lemma split_last (s : cstring) :
  ∃ last_ front,
    last (split s) = Some last_ ∧ s = front ++ last_ ∧
    (length (split s) = 1%nat → front = []).
Proof.
  induction s as [|c s (last_ & front & Hlast & Hfront & Hone)]; simpl.
  - by exists [], [].
  - pose proof (split_not_nil delimiters s) as Hne.
    destruct (in_set delimiters c).
    + exists last_, (c :: front). destruct (split s) as [|token tokens]; [done|].
      split; [done|]. split; [by rewrite Hfront at 1|]. done.
    + destruct (split s) as [|token [|token' tokens]]; [done| |].
      * injection Hlast as <-. exists (c :: token), [].
        rewrite (Hone eq_refl) in Hfront. simpl in Hfront. by rewrite Hfront.
      * exists last_, (c :: front). split; [done|].
        split; [by rewrite Hfront at 1|]. done.
Qed.
End Tokens.

(** With one delimiter character, the delimiters of a string are a run of
    that character. *)
Lemma single_delimiter_run (d : ascii) (s : cstring) :
  filter (λ c, c ∈ [d]) s
  = replicate (length (filter (λ c, StdString.in_set [d] c = true) s)) d.
Proof.
  induction s as [|c s IH]; [done|].
  rewrite !filter_cons.
  destruct (StdString.in_set [d] c) eqn:Hc.
  - apply in_set_true in Hc. rewrite !decide_True by done.
    apply list_elem_of_singleton in Hc as ->. simpl. by rewrite IH.
  - apply in_set_false in Hc. by rewrite !decide_False by done.
Qed.

(** X14. No token of [strSplit] contains a delimiter, and the tokens put
    end to end are the input without its delimiter characters: splitting
    loses the delimiters and nothing else. *)
Theorem strSplit_tokens_are_clean (str delimiters : cstring) :
  StdString.size str < StdString.npos →
  ∃ tokens, strSplit str delimiters = Ok tokens ∧
    Forall (λ token, Forall (λ c, c ∉ delimiters) token) tokens ∧
    concat tokens = filter (λ c, c ∉ delimiters) str.
Proof.
  intros Hsize. exists (split_at_every_delimiter delimiters str).
  split; [by apply strSplit_split|].
  split; [apply split_tokens_clean|apply split_concat].
Qed.

Lemma strSplit_tokens_are_clean_witness :
  ∃ tokens, strSplit (lit "a,,b;c") (lit ",;") = Ok tokens ∧
    Forall (λ token, Forall (λ c, c ∉ lit ",;") token) tokens ∧
    concat tokens = filter (λ c, c ∉ lit ",;") (lit "a,,b;c").
Proof. apply (strSplit_tokens_are_clean (lit "a,,b;c") (lit ",;")). reflexivity. Defined.

(** X15. Splitting can be undone: the tokens, put back together with the
    delimiter characters of the input between them, in the order they
    occur there, are the input. With a single delimiter character, the
    tokens joined by that character are the input. *)
Theorem strSplit_round_trip (str delimiters : cstring) :
  StdString.size str < StdString.npos →
  ∃ tokens, strSplit str delimiters = Ok tokens ∧
    rejoin tokens (filter (λ c, c ∈ delimiters) str) = str ∧
    (∀ d, delimiters = [d] → rejoin tokens (replicate (length tokens - 1) d) = str).
Proof.
  intros Hsize. exists (split_at_every_delimiter delimiters str).
  split; [by apply strSplit_split|]. split; [apply split_rejoin|].
  intros d ->. rewrite split_length. simpl. rewrite Nat.sub_0_r.
  rewrite <- single_delimiter_run. apply split_rejoin.
Qed.

Lemma strSplit_round_trip_witness :
  ∃ tokens, strSplit (lit "a,,b,") (lit ",") = Ok tokens ∧
    rejoin tokens (filter (λ c, c ∈ lit ",") (lit "a,,b,")) = lit "a,,b," ∧
    (∀ d, lit "," = [d] → rejoin tokens (replicate (length tokens - 1) d) = lit "a,,b,").
Proof. apply (strSplit_round_trip (lit "a,,b,") (lit ",")). reflexivity. Defined.

(** X16. The first token of [strSplit] starts the input and the last
    token ends it, as [strStartsWith] and [strEndsWith] see them. *)
Theorem strSplit_first_and_last_token (str delimiters : cstring) :
  StdString.size str < StdString.npos →
  ∃ first tokens last_,
    strSplit str delimiters = Ok (first :: tokens) ∧
    last (first :: tokens) = Some last_ ∧
    strStartsWith str first = Some true ∧
    strEndsWith str last_ = Some true.
Proof.
  intros Hsize.
  destruct (split_first delimiters str) as (first & tokens & rest & Hsplit & Hrest).
  destruct (split_last delimiters str) as (last_ & front & Hlast & Hfront & _).
  exists first, tokens, last_. rewrite <- Hsplit.
  split; [by apply strSplit_split|]. split; [done|].
  split; [apply strStartsWith_iff; by exists rest|].
  apply strEndsWith_iff. by exists front.
Qed.

Lemma strSplit_first_and_last_token_witness :
  ∃ first tokens last_,
    strSplit (lit "key=value=x") (lit "=") = Ok (first :: tokens) ∧
    last (first :: tokens) = Some last_ ∧
    strStartsWith (lit "key=value=x") first = Some true ∧
    strEndsWith (lit "key=value=x") last_ = Some true.
Proof.
  apply (strSplit_first_and_last_token (lit "key=value=x") (lit "=")). reflexivity.
Defined.

(** X17. What [trimLeft] returns ends its input, what [trimRight]
    returns starts it, as [strEndsWith] and [strStartsWith] see them. *)
Theorem trimmed_is_suffix_or_prefix (s : cstring) :
  StdString.size s < StdString.npos →
  ∃ t u,
    trimLeft s = Ok t ∧ strEndsWith s t = Some true ∧
    trimRight s = Ok u ∧ strStartsWith s u = Some true.
Proof.
  intros Hsize.
  destruct (leading_run not_blank s) as (l & t & Hs & Hl & Ht).
  destruct (trailing_run not_blank s) as (u & r & Hs' & Hr & Hu).
  exists t, u.
  split; [rewrite Hs; apply trimLeft_run; by rewrite <- ?Hs|].
  split; [apply strEndsWith_iff; by exists l|].
  split; [rewrite Hs' at 1; apply trimRight_run; by rewrite <- ?Hs'|].
  apply strStartsWith_iff. by exists r.
Qed.

Lemma trimmed_is_suffix_or_prefix_witness :
  ∃ t u,
    trimLeft (lit "  a b  ") = Ok t ∧ strEndsWith (lit "  a b  ") t = Some true ∧
    trimRight (lit "  a b  ") = Ok u ∧ strStartsWith (lit "  a b  ") u = Some true.
Proof. apply (trimmed_is_suffix_or_prefix (lit "  a b  ")). reflexivity. Defined.

(** ** [readLine] and [strSplit] *)

Section Lines.
Import IStream.

Local Abbreviation lines := (split_at_every_delimiter [newline]).

Lemma read_lines_at_eof (n : nat) (is_ : istream) (currentLine : cstring) :
  eof is_ = true → read_lines n is_ currentLine = Ok (replicate n (-1, currentLine)).
Proof.
  intros Heof. induction n as [|n IH]; simpl; [done|].
  by rewrite readLine_at_eof, IH.
Qed.

Lemma newline_free (s : cstring) :
  Forall (λ c, StdString.in_set [newline] c = false) s → newline ∉ s.
Proof.
  intros Hs Hin. eapply Forall_forall in Hs; [|exact Hin].
  apply in_set_false in Hs. apply Hs. by left.
Qed.

(** Reading a freshly opened stream line by line yields the pieces
    between its newlines, and the sentinel from then on. *)
Lemma read_lines_opened (n : nat) :
  ∀ (s currentLine : cstring) (k : nat),
    (length s < n)%nat → StdString.size s <= INT_MAX →
    ∃ last_, last (lines s) = Some last_ ∧
      read_lines (length (lines s) + k) (opened s) currentLine
      = Ok (((λ line, (StdString.size line, line)) <$> lines s)
            ++ replicate k (-1, last_)).
Proof.
  induction n as [|n IH]; intros s cur k Hn Hsize; [lia|].
  destruct (leading_run (StdString.in_set [newline]) s)
    as (pre & rest & -> & Hpre & [->|(c & post & -> & Hc)]).
  - rewrite app_nil_r in *. rewrite split_no_delimiter by done.
    exists pre. split; [done|]. simpl.
    destruct (readLine_last_line (opened pre) cur pre) as (is' & -> & _ & Heof);
      [done|done|by apply newline_free|done|].
    by rewrite read_lines_at_eof.
  - apply in_set_true in Hc. apply list_elem_of_singleton in Hc as ->.
    assert (Hin : StdString.in_set [newline] newline = true) by done.
    rewrite (split_app_delimiter _ _ _ _ Hin), (split_no_delimiter _ pre) by done.
    unfold StdString.size in Hsize. rewrite length_app in Hn, Hsize.
    simpl in Hn, Hsize.
    destruct (IH post pre k) as (last_ & Hlast & Hrest);
      [lia|unfold StdString.size; lia|].
    exists last_. split.
    + pose proof (split_not_nil [newline] post). simpl.
      by destruct (lines post).
    + simpl.
      rewrite (readLine_line (opened (pre ++ newline :: post)) cur pre post);
        [|done|done|by apply newline_free|unfold StdString.size; lia].
      by rewrite Hrest.
Qed.

(** The macro on a good stream: it discards the characters up to and
    including the next newline, or all of them when there is none, which
    leaves the stream at its end with both flags set. *)
Lemma G2O_FSKIP_LINE_loop_skips (post : cstring) (pre : cstring) :
  newline ∉ pre →
  ∀ (fuel : nat) (c : ascii),
    (length pre < fuel)%nat → c ≠ newline →
    G2O_FSKIP_LINE_loop fuel (opened (pre ++ newline :: post)) c = Ok (opened post).
Proof.
  induction pre as [|c' pre IH]; intros Hpre fuel c Hfuel Hc.
  - destruct fuel as [|fuel]; [simpl in Hfuel; lia|]. simpl.
    rewrite bool_decide_eq_false_2 by done. simpl.
    by destruct fuel.
  - apply not_elem_of_cons in Hpre as [Hc' Hpre].
    destruct fuel as [|fuel]; [simpl in Hfuel; lia|]. simpl.
    rewrite bool_decide_eq_false_2 by done. simpl.
    apply IH; [done|simpl in Hfuel; lia|done].
Qed.

Lemma G2O_FSKIP_LINE_loop_drains (pre : cstring) :
  newline ∉ pre →
  ∀ (fuel : nat) (c : ascii),
    (length pre < fuel)%nat → c ≠ newline →
    G2O_FSKIP_LINE_loop fuel (opened pre) c = Ok exhausted.
Proof.
  induction pre as [|c' pre IH]; intros Hpre fuel c Hfuel Hc.
  - destruct fuel as [|fuel]; [simpl in Hfuel; lia|]. simpl.
    rewrite bool_decide_eq_false_2 by done. simpl.
    destruct fuel; simpl; by rewrite andb_false_r.
  - apply not_elem_of_cons in Hpre as [Hc' Hpre].
    destruct fuel as [|fuel]; [simpl in Hfuel; lia|]. simpl.
    rewrite bool_decide_eq_false_2 by done. simpl.
    apply IH; [done|simpl in Hfuel; lia|done].
Qed.

Lemma G2O_FSKIP_LINE_skips (pre post : cstring) :
  newline ∉ pre → G2O_FSKIP_LINE (opened (pre ++ newline :: post)) = Ok (opened post).
Proof.
  intros Hpre. apply G2O_FSKIP_LINE_loop_skips; [done| |done].
  simpl. rewrite length_app. simpl. lia.
Qed.

Lemma G2O_FSKIP_LINE_drains (pre : cstring) :
  newline ∉ pre → G2O_FSKIP_LINE (opened pre) = Ok exhausted.
Proof.
  intros Hpre. apply G2O_FSKIP_LINE_loop_drains; [done|simpl; lia|done].
Qed.
End Lines.

(** X18. [readLine] and [strSplit] agree on what the lines of a text are.
    Called again and again on a stream freshly opened on a text (of at
    most [INT_MAX] characters), [readLine] extracts, in order, exactly the
    tokens [strSplit] gives for that text and the newline as delimiter,
    each time returning the token's length; every call after that returns
    the sentinel -1 and leaves the last line in the buffer. *)
Theorem readLine_reads_the_tokens_of_strSplit (s currentLine : cstring) (k : nat) :
  StdString.size s <= INT_MAX →
  ∃ tokens last_,
    strSplit s [IStream.newline] = Ok tokens ∧
    last tokens = Some last_ ∧
    read_lines (length tokens + k) (IStream.opened s) currentLine
    = Ok (((λ line, (StdString.size line, line)) <$> tokens)
          ++ replicate k (-1, last_)).
Proof.
  intros Hsize.
  destruct (read_lines_opened (S (length s)) s currentLine k) as (last_ & Hlast & Hrun);
    [lia|done|].
  exists (split_at_every_delimiter [IStream.newline] s), last_.
  split; [|done]. apply strSplit_split.
  unfold StdString.npos, StdString.size_modulus, INT_MAX in *. lia.
Qed.

Lemma readLine_reads_the_tokens_of_strSplit_witness :
  ∃ tokens last_,
    strSplit (lit "ab

c
") [IStream.newline] = Ok tokens ∧
    last tokens = Some last_ ∧
    read_lines (length tokens + 2) (IStream.opened (lit "ab

c
")) (lit "old")
    = Ok (((λ line, (StdString.size line, line)) <$> tokens)
          ++ replicate 2 (-1, last_)).
Proof.
  apply (readLine_reads_the_tokens_of_strSplit (lit "ab

c
") (lit "old") 2).
  by vm_compute.
Defined.

(** X19. [readLine] on a stream that has failed before (its failure flag
    is set, its end-of-file flag is not) extracts nothing, clears the
    failure and then discards the characters up to and including the next
    newline: a whole line is dropped, and the call returns 0 with an empty
    line buffer, as it does for an empty line. Without a newline ahead it
    discards the rest of the data and leaves the stream at its end. *)
Theorem readLine_on_failed_stream (is_ : IStream.istream) (currentLine : cstring) :
  IStream.fail is_ = true → IStream.eof is_ = false →
  (∀ pre post,
     IStream.unread is_ = pre ++ IStream.newline :: post →
     IStream.newline ∉ pre →
     readLine is_ currentLine = Ok (0, IStream.opened post, [])) ∧
  (IStream.newline ∉ IStream.unread is_ →
   readLine is_ currentLine = Ok (0, exhausted, [])).
Proof.
  intros Hfail Heof.
  assert (Hrun : readLine is_ currentLine
                 = match G2O_FSKIP_LINE (IStream.opened (IStream.unread is_)) with
                   | Ok is' => Ok (0, is', [])
                   | OutOfRange => OutOfRange
                   | OutOfFuel => OutOfFuel
                   end).
  { unfold readLine. rewrite Heof. unfold IStream.get_into, IStream.good.
    unfold IStream.fail in Hfail. rewrite Hfail, andb_false_r. simpl.
    by destruct (G2O_FSKIP_LINE _). }
  rewrite Hrun. split.
  - intros pre post -> Hpre. by rewrite G2O_FSKIP_LINE_skips.
  - intros Hpre. by rewrite G2O_FSKIP_LINE_drains.
Qed.

Lemma readLine_on_failed_stream_witness :
  let failed s :=
    {| IStream.unread := s; IStream.eofbit := false; IStream.failbit := true |} in
  readLine (failed (lit "12x
next")) (lit "old") = Ok (0, IStream.opened (lit "next"), []) ∧
  readLine (failed (lit "12x")) (lit "old") = Ok (0, exhausted, []).
Proof.
  cbv zeta. split.
  - apply (proj1 (readLine_on_failed_stream
                    {| IStream.unread := lit "12x
next"; IStream.eofbit := false; IStream.failbit := true |}
                    (lit "old") eq_refl eq_refl) (lit "12x") (lit "next"));
      [reflexivity|by apply (bool_decide_unpack _)].
  - apply (proj2 (readLine_on_failed_stream
                    {| IStream.unread := lit "12x"; IStream.eofbit := false;
                       IStream.failbit := true |}
                    (lit "old") eq_refl eq_refl)).
    by apply (bool_decide_unpack _).
Defined.

(** ** The callers of the builder: [portable_asprintf], [formatString],
    [strPrintf] *)

(** A buffer that holds a terminator reads back as a C string: the
    characters before the first terminator. *)
Lemma until_NUL_total (text rest : cstring) :
  ∃ s t, Libc.until_NUL (text ++ Libc.NUL :: rest) = Some s ∧
    text = s ++ t ∧ (Libc.NUL ∉ s) ∧ (t = [] ∨ ∃ t', t = Libc.NUL :: t').
Proof.
  induction text as [|c text (s & t & Hs & Ht & Hnul & Hcut)]; simpl.
  - exists [], []. split; [done|]. split; [done|].
    split; [apply not_elem_of_nil|by left].
  - case_bool_decide as Hc.
    + exists [], (c :: text). split; [done|]. split; [done|].
      split; [apply not_elem_of_nil|]. right. exists text. by rewrite Hc.
    + exists (c :: s), t. rewrite Hs. split; [done|].
      split; [simpl; by rewrite <- Ht|].
      split; [|done]. apply not_elem_of_cons. split; [congruence|done].
Qed.

Lemma ledger_app (calls calls' : list Libc.event) :
  ∀ owned owned',
    Libc.ledger owned calls = Some owned' →
    Libc.ledger owned (calls ++ calls') = Libc.ledger owned' calls'.
Proof.
  induction calls as [|e calls IH]; intros owned owned' Hledger; simpl in *.
  - by injection Hledger as ->.
  - destruct e; try (by apply IH).
    + destruct (Libc.owns owned old); [by apply IH|done].
    + destruct (Libc.owns owned p); [by apply IH|done].
Qed.

Lemma ledger_release (q : Z) : Libc.ledger [q] [Libc.EvFree q] = Some [].
Proof.
  simpl. unfold Libc.owns, Libc.disown. simpl. by rewrite Z.eqb_refl.
Qed.

Ltac no_diagnostic :=
  let Hin := fresh "Hin" in
  intros Hin;
  repeat (apply elem_of_cons in Hin as [Hin|Hin]; [discriminate Hin|]);
  by apply elem_of_nil in Hin.

Section Callers.
Import Libc.
Context (pf : platform) (w : world) (fmt : cstring) (args : list arg).
Hypothesis Hsig : sigint pf ≠ SIG_DFL.
Hypothesis Hfresh : fresh w.

Local Abbreviation f1 := (next_fault (alloc_faults w)).
Local Abbreviation f2 := (next_fault (tail (alloc_faults w))).
Local Abbreviation r1 := (reported pf (next_fault (format_faults w)) fmt args).
Local Abbreviation r2 := (reported pf (next_fault (tail (format_faults w))) fmt args).
Local Abbreviation failure :=
  (f1 = true ∨ (f1 = false ∧ r1 < 0) ∨ (f1 = false ∧ 512 <= r1 ∧ f2 = true) ∨
   (f1 = false ∧ 512 <= r1 ∧ f2 = false ∧ r2 < 0)).

(** What the builder hands to its caller: on a failure -1, the caller's
    pointer as it was and the heap as it was; otherwise the length of the
    rendered text and one new block that holds the text and its
    terminator. *)
Lemma builder_outcome (strp : Z) :
  ∃ res w1 calls,
    portable_vasprintf pf strp fmt (VaArgs args) w = Returns res w1 ∧
    trace w1 = trace w ++ calls ∧
    (∀ msg, EvCerr msg ∉ calls) ∧
    ((failure ∧ res = (-1, strp) ∧ heap w1 = heap w ∧ ledger [] calls = Some []) ∨
     (¬ failure ∧
      ∃ text q size,
        res = (StdString.size text, q) ∧ format pf fmt args = Some text ∧
        q ≠ NULL ∧ heap w !! q = None ∧
        heap w1 = <[q := {| blk_size := size; blk_bytes := text ++ [NUL] |}]> (heap w) ∧
        ledger [] calls = Some [q])).
Proof.
  destruct (portable_vasprintf_exits pf w strp fmt args Hsig Hfresh)
    as (e & res & w1 & calls & Hrun & Htrace & He).
  pose proof (ledger_after_exit pf w fmt args Hfresh e) as Hledger.
  pose proof (next_not_NULL w Hfresh) as Hp.
  pose proof (next_unused w Hfresh) as Hunused.
  exists res, w1, calls. split; [exact Hrun|]. split; [exact Htrace|].
  destruct e; cbv beta iota zeta in Hledger.
  - destruct He as (Hf1 & -> & Hheap & ->).
    split; [intros msg; no_diagnostic|]. left.
    split; [by left|]. split; [done|]. split; [done|exact Hledger].
  - destruct He as (Hf1 & Hneg & -> & Hheap & ->).
    split; [intros msg; no_diagnostic|]. left.
    split; [by right; left|]. split; [done|]. split; [done|exact Hledger].
  - destruct He as (Hf1 & Hfit & -> & _ & ->).
    split; [intros msg; no_diagnostic|]. right.
    split; [intros [?|[[_ ?]|[(_ & ? & _)|(_ & ? & _)]]]; (congruence || lia)|].
    destruct (reported_nonneg pf _ fmt args (proj1 Hfit))
      as (text & Hff1 & Hfmt & Hr1 & Hmax).
    destruct (path_fits pf w strp fmt args Hsig Hfresh text Hf1 Hff1 Hfmt)
      as (w' & Hrun' & Hheap & _); [lia|].
    rewrite Hrun in Hrun'. injection Hrun' as Hn <-.
    exists text, (next_block w), 512. rewrite Hn.
    split; [done|]. split; [done|]. split; [done|].
    split; [|by split]. rewrite <- (Z.add_0_r (next_block w)). by apply Hunused.
  - destruct He as (Hf1 & Hbig & Hf2 & -> & Hheap & ->).
    split; [intros msg; no_diagnostic|]. left.
    split; [by right; right; left|]. split; [done|]. split; [done|exact Hledger].
  - destruct He as (Hf1 & Hbig & Hf2 & Hneg & -> & Hheap & ->).
    split; [intros msg; no_diagnostic|]. left.
    split; [by right; right; right|]. split; [done|]. split; [done|exact Hledger].
  - destruct He as (Hf1 & Hbig & Hf2 & Hpos & -> & _ & ->).
    split; [intros msg; no_diagnostic|]. right.
    split; [intros [?|[[_ ?]|[(_ & _ & ?)|(_ & _ & _ & ?)]]]; (congruence || lia)|].
    destruct (reported_nonneg pf _ fmt args (Z.le_trans 0 512 _ ltac:(lia) Hbig))
      as (text & Hff1 & Hfmt & Hr1 & Hmax).
    destruct (reported_nonneg pf _ fmt args Hpos) as (text2 & Hff2 & Hfmt2 & Hr2 & _).
    assert (text2 = text) as -> by congruence.
    destruct (path_retried pf w strp fmt args Hsig Hfresh text Hf1 Hff1 Hfmt)
      as (w' & Hrun' & Hheap & _); [lia|done|done|].
    rewrite Hrun in Hrun'. injection Hrun' as Hn <-.
    exists text, (next_block w + 1), (to_size_t (to_int (StdString.size text + 1))).
    rewrite Hn. split; [done|]. split; [done|].
    split; [destruct Hfresh; unfold NULL; lia|].
    split; [by apply Hunused|by split].
Qed.

(** Reading a block as a C string and releasing it. *)
Lemma read_and_release {A} (k : cstring → A) (q : Z) (b : block) (s : cstring)
    (w1 : world) :
  q ≠ NULL → heap w1 !! q = Some b → until_NUL (blk_bytes b) = Some s →
  (str ← string_of q; _ ← free q; mret (k str)) w1
  = Returns (k s)
      {| heap := delete q (heap w1); next_block := next_block w1;
         alloc_faults := alloc_faults w1; format_faults := format_faults w1;
         trace := trace w1 ++ [EvFree q] |}.
Proof.
  intros Hq Hb Hs.
  erewrite bind_returns; cycle 1.
  { unfold string_of. rewrite Hb, Hs. by destruct (Z.eqb_spec q NULL). }
  erewrite bind_returns by by eapply free_live.
  reflexivity.
Qed.

Lemma formatString_failed (w1 : world) :
  portable_vasprintf pf NULL fmt (VaArgs args) w = Returns (-1, NULL) w1 →
  formatString pf fmt args w = Returns [] (log (EvCerr allocation_diagnostic) w1).
Proof.
  intros Hrun. unfold formatString, va_start.
  erewrite bind_returns by exact Hrun. reflexivity.
Qed.

Lemma formatString_succeeded (n q : Z) (b : block) (s : cstring) (w1 : world) :
  portable_vasprintf pf NULL fmt (VaArgs args) w = Returns (n, q) w1 →
  0 <= n → q ≠ NULL → heap w1 !! q = Some b → until_NUL (blk_bytes b) = Some s →
  formatString pf fmt args w
  = Returns s
      {| heap := delete q (heap w1); next_block := next_block w1;
         alloc_faults := alloc_faults w1; format_faults := format_faults w1;
         trace := trace w1 ++ [EvFree q] |}.
Proof.
  intros Hrun Hn Hq Hb Hs. unfold formatString, va_start.
  erewrite bind_returns by exact Hrun. cbv beta iota.
  rewrite bool_decide_eq_true_2 by lia.
  by apply (read_and_release (λ str, str) q b).
Qed.

Lemma strPrintf_failed (str : cstring) (w1 : world) :
  portable_vasprintf pf NULL fmt (VaArgs args) w = Returns (-1, NULL) w1 →
  strPrintf pf str fmt args w = Undefined w1.
Proof.
  intros Hrun. unfold strPrintf, va_start.
  erewrite bind_returns by exact Hrun. reflexivity.
Qed.

Lemma strPrintf_succeeded (str : cstring) (n q : Z) (b : block) (s : cstring)
    (w1 : world) :
  portable_vasprintf pf NULL fmt (VaArgs args) w = Returns (n, q) w1 →
  q ≠ NULL → heap w1 !! q = Some b → until_NUL (blk_bytes b) = Some s →
  strPrintf pf str fmt args w
  = Returns (n, s)
      {| heap := delete q (heap w1); next_block := next_block w1;
         alloc_faults := alloc_faults w1; format_faults := format_faults w1;
         trace := trace w1 ++ [EvFree q] |}.
Proof.
  intros Hrun Hq Hb Hs. unfold strPrintf, va_start.
  erewrite bind_returns by exact Hrun. cbv beta iota.
  by apply (read_and_release (λ str, (n, str)) q b).
Qed.
End Callers.

(** X20. [formatString] returns the rendered text. When the process
    survives the signal and the runtime injects no failure, a format whose
    text is shorter than [INT_MAX] and holds no terminator comes back as
    that text, whether it took one pass or two; nothing is written to
    [cerr], the buffer the builder handed over is released exactly once,
    and the heap is as it was before the call. *)
Theorem formatString_returns_the_text (pf : Libc.platform) (w : Libc.world)
    (fmt : cstring) (args : list Libc.arg) (text : cstring) :
  Libc.sigint pf ≠ Libc.SIG_DFL →
  Libc.fresh w →
  Libc.next_fault (Libc.alloc_faults w) = false →
  Libc.next_fault (Libc.format_faults w) = false →
  Libc.next_fault (tail (Libc.alloc_faults w)) = false →
  Libc.next_fault (tail (Libc.format_faults w)) = false →
  Libc.format pf fmt args = Some text →
  StdString.size text < INT_MAX →
  Libc.NUL ∉ text →
  ∃ w' calls buffer,
    formatString pf fmt args w = Libc.Returns text w' ∧
    Libc.heap w' = Libc.heap w ∧
    Libc.trace w' = Libc.trace w ++ calls ++ [Libc.EvFree buffer] ∧
    (∀ msg, Libc.EvCerr msg ∉ calls) ∧
    Libc.ledger [] (calls ++ [Libc.EvFree buffer]) = Some [].
Proof.
  intros Hsig Hfresh Hf1 Hff1 Hf2 Hff2 Hfmt Hsize Hnul.
  assert (Hmax : StdString.size text <= INT_MAX) by lia.
  pose proof (reported_text pf fmt args text Hfmt Hmax) as Hr.
  assert (Hpos : 0 <= StdString.size text) by (unfold StdString.size; lia).
  destruct (builder_outcome pf w fmt args Hsig Hfresh Libc.NULL)
    as (res & w1 & calls & Hrun & Htrace & Hquiet &
        [(Hfail & _)|(_ & text' & q & size & -> & Hfmt' & Hq & Hnew & Hheap & Hledger)]).
  { rewrite Hff1, Hff2, Hr in Hfail.
    destruct Hfail as [?|[[_ ?]|[(_ & _ & ?)|(_ & _ & _ & ?)]]]; (congruence || lia). }
  assert (text' = text) as -> by congruence.
  exists {| Libc.heap := delete q (Libc.heap w1); Libc.next_block := Libc.next_block w1;
            Libc.alloc_faults := Libc.alloc_faults w1;
            Libc.format_faults := Libc.format_faults w1;
            Libc.trace := Libc.trace w1 ++ [Libc.EvFree q] |}, calls, q.
  split.
  { eapply formatString_succeeded with (b := {| Libc.blk_size := size; Libc.blk_bytes := text ++ [Libc.NUL] |});
      [exact Hrun|done|done| |].
    - rewrite Hheap. apply lookup_insert_eq.
    - by apply until_NUL_terminated. }
  world_simpl. split; [rewrite Hheap; by apply delete_insert_id|].
  split; [by rewrite Htrace, app_assoc|]. split; [done|].
  rewrite (ledger_app _ _ _ _ Hledger). apply ledger_release.
Qed.

Lemma formatString_returns_the_text_witness :
  let fmt := lit "%s has %d items" in
  let args := [Libc.ArgStr (lit "cart"); Libc.ArgInt 3] in
  ∃ w' calls buffer,
    formatString Demo.ignoring fmt args (Demo.start [] [])
    = Libc.Returns (lit "cart has 3 items") w' ∧
    Libc.heap w' = ∅ ∧
    Libc.trace w' = [] ++ calls ++ [Libc.EvFree buffer] ∧
    (∀ msg, Libc.EvCerr msg ∉ calls) ∧
    Libc.ledger [] (calls ++ [Libc.EvFree buffer]) = Some [].
Proof.
  apply (formatString_returns_the_text Demo.ignoring (Demo.start [] [])
           (lit "%s has %d items") [Libc.ArgStr (lit "cart"); Libc.ArgInt 3]
           (lit "cart has 3 items"));
    try reflexivity.
  - discriminate.
  - split; [reflexivity|]. intros p _. apply lookup_empty.
  - by apply (bool_decide_unpack _).
Defined.



(** X22. [strPrintf] assigns its string from the builder's pointer without
    a test of what the builder returned. When the builder fails (the probe
    buffer is refused, the format is in error, the second buffer is
    refused, or the second rendering fails) the pointer is still null and
    the assignment is undefined behaviour, where [formatString] returns
    the empty string. When the builder succeeds, [strPrintf] returns the
    length of the rendered text, sets the string to the text up to its
    first terminator (the text is the string, followed by nothing or by a
    terminator and the rest, and the string holds no terminator), and
    leaves the heap as it was. *)
Theorem strPrintf_outcome (pf : Libc.platform) (w : Libc.world)
    (str fmt : cstring) (args : list Libc.arg) :
  Libc.sigint pf ≠ Libc.SIG_DFL →
  Libc.fresh w →
  let malloc_fails := Libc.next_fault (Libc.alloc_faults w) in
  let probe := Libc.reported pf (Libc.next_fault (Libc.format_faults w)) fmt args in
  let realloc_fails := Libc.next_fault (tail (Libc.alloc_faults w)) in
  let retry := Libc.reported pf (Libc.next_fault (tail (Libc.format_faults w))) fmt args in
  let failure :=
    malloc_fails = true ∨
    (malloc_fails = false ∧ probe < 0) ∨
    (malloc_fails = false ∧ 512 <= probe ∧ realloc_fails = true) ∨
    (malloc_fails = false ∧ 512 <= probe ∧ realloc_fails = false ∧ retry < 0) in
  probe < INT_MAX →
  (failure →
   ∃ w1, strPrintf pf str fmt args w = Libc.Undefined w1 ∧
     Libc.heap w1 = Libc.heap w ∧
     formatString pf fmt args w
     = Libc.Returns [] (Libc.log (Libc.EvCerr allocation_diagnostic) w1)) ∧
  (¬ failure →
   ∃ text s t w',
     Libc.format pf fmt args = Some text ∧ text = s ++ t ∧ (Libc.NUL ∉ s) ∧
     (t = [] ∨ ∃ t', t = Libc.NUL :: t') ∧
     strPrintf pf str fmt args w = Libc.Returns (StdString.size text, s) w' ∧
     Libc.heap w' = Libc.heap w).
Proof.
  intros Hsig Hfresh malloc_fails probe realloc_fails retry failure _.
  destruct (builder_outcome pf w fmt args Hsig Hfresh Libc.NULL)
    as (res & w1 & calls & Hrun & Htrace & Hquiet &
        [(Hfail & -> & Hheap & Hledger)
        |(Hok & text & q & size & -> & Hfmt & Hq & Hnew & Hheap & Hledger)]).
  - split; [|done]. intros _. exists w1.
    split; [by apply strPrintf_failed|]. split; [done|].
    by apply formatString_failed.
  - split; [done|]. intros _.
    destruct (until_NUL_total text []) as (s & t & Hs & Ht & Hnul & Hcut).
    exists text, s, t. eexists.
    split; [done|]. split; [done|]. split; [done|]. split; [done|]. split.
    { eapply strPrintf_succeeded with (b := {| Libc.blk_size := size; Libc.blk_bytes := text ++ [Libc.NUL] |});
        [exact Hrun|done| |exact Hs].
      rewrite Hheap. apply lookup_insert_eq. }
    world_simpl. rewrite Hheap. by apply delete_insert_id.
Qed.

Lemma strPrintf_outcome_witness :
  (∃ w1, strPrintf Demo.ignoring (lit "old") (lit "hello %q") [] (Demo.start [] [])
         = Libc.Undefined w1 ∧
     Libc.heap w1 = ∅ ∧
     formatString Demo.ignoring (lit "hello %q") [] (Demo.start [] [])
     = Libc.Returns [] (Libc.log (Libc.EvCerr allocation_diagnostic) w1)) ∧
  (∃ text s t w',
     Demo.render (lit "%d items") [Libc.ArgInt 3] = Some text ∧ text = s ++ t ∧
     (Libc.NUL ∉ s) ∧
     (t = [] ∨ ∃ t', t = Libc.NUL :: t') ∧
     strPrintf Demo.ignoring (lit "old") (lit "%d items") [Libc.ArgInt 3]
       (Demo.start [] [])
     = Libc.Returns (StdString.size text, s) w' ∧
     Libc.heap w' = ∅).
Proof.
  assert (Hfresh : Libc.fresh (Demo.start [] [])).
  { split; [reflexivity|]. intros p _. apply lookup_empty. }
  assert (Hsig : Libc.sigint Demo.ignoring ≠ Libc.SIG_DFL) by discriminate.
  split.
  - apply (proj1 (strPrintf_outcome Demo.ignoring (Demo.start [] []) (lit "old")
                    (lit "hello %q") [] Hsig Hfresh ltac:(by vm_compute))).
    right. left. split; [reflexivity|by vm_compute].
  - apply (proj2 (strPrintf_outcome Demo.ignoring (Demo.start [] []) (lit "old")
                    (lit "%d items") [Libc.ArgInt 3] Hsig Hfresh ltac:(by vm_compute))).
    intros [Hf|[[_ Hf]|[(_ & Hf & _)|(_ & Hf & _)]]]; by vm_compute in Hf.
Defined.


